(** * Customer list view-model of [src/views/HomeView.vue]

    The component keeps the latest snapshot of the customer table, the
    search boxes and the sort directive, and derives the rows to show:
    [filteredCustomers], then [sortedAndFilteredCustomers].  Around that
    sit the header click handler [sortBy], the form handlers
    [addCustomer] and [updateCustomer], and the file handler
    [importData].

    Conventions of the embedding:
    - text is [string], a sequence of 8-bit characters; [toLowerCase]
      folds the letters A to Z;
    - a [Date] is its time value, the milliseconds since the epoch, in
      [Z]: the dates of a record are calendar dates, never the invalid
      date;
    - JavaScript numbers that occur (ids, time values, comparator results)
      are integers, in [Z];
    - an optional field ([id], [lastCall], [nextCall]) is an [option];
      [None] is JavaScript's [undefined];
    - the module [db] is not part of the sources at hand: the record
      type comes from the spec, and the Record Store is seen through the
      calls the component makes to it, each taken to resolve. *)

From Stdlib Require Import ZArith List String Ascii Bool Lia Permutation.
From Stdlib Require Import DecimalString.
From stdpp Require Import gmap.
Import ListNotations.

Local Open Scope Z_scope.

(* ================================================================== *)
(** * Text built-ins *)

Module Text.

(** [String.prototype.toLowerCase], on the letters A to Z. *)
Definition lowerChar (c : ascii) : ascii :=
  let n := nat_of_ascii c in
  if andb (Nat.leb 65 n) (Nat.leb n 90) then ascii_of_nat (n + 32) else c.

Fixpoint toLowerCase (s : string) : string :=
  match s with
  | EmptyString => EmptyString
  | String c rest => String (lowerChar c) (toLowerCase rest)
  end.

(** [s.startsWith(t)]. *)
Fixpoint startsWith (s t : string) : bool :=
  match t, s with
  | EmptyString, _ => true
  | String _ _, EmptyString => false
  | String b t', String a s' => andb (Ascii.eqb a b) (startsWith s' t')
  end.

(** [s.includes(t)]: [t] occurs in [s] at some position. *)
Fixpoint includes (s t : string) : bool :=
  orb (startsWith s t)
      match s with
      | EmptyString => false
      | String _ s' => includes s' t
      end.

(** [s.split(sep)[0]]: the text before the first [sep], all of [s] when
    [sep] does not occur. *)
Fixpoint splitHead (sep : ascii) (s : string) : string :=
  match s with
  | EmptyString => EmptyString
  | String c rest => if Ascii.eqb c sep then EmptyString else String c (splitHead sep rest)
  end.

(** A string is truthy when it is not empty. *)
Definition truthy (s : string) : bool :=
  match s with EmptyString => false | String _ _ => true end.

(** [String(n)] for an integer [n]. *)
Definition ofNumber (n : Z) : string := NilZero.string_of_int (Z.to_int n).

End Text.

(* ================================================================== *)
(** * Dates *)

Module DateTime.

(** A [Date] object, by its time value. *)
Definition Date : Type := Z.

Definition getTime (d : Date) : Z := d.

Definition msPerDay : Z := 86400000.

(** ECMAScript's [Day(t)]: whole days since the epoch, rounded down. *)
Definition Day (t : Z) : Z := t / msPerDay.

(** ECMAScript's [TimeWithinDay(t)]. *)
Definition TimeWithinDay (t : Z) : Z := t mod msPerDay.

Record CalendarDate : Type := mkCalendarDate { year : Z; month : Z; day : Z }.

(** Year, month (1 to 12) and day of the month of a day number, in the
    proleptic Gregorian calendar: ECMAScript's [YearFromTime],
    [MonthFromTime] + 1 and [DateFromTime], computed per 400-year era. *)
Definition calendarOfDay (dayNumber : Z) : CalendarDate :=
  let z := dayNumber + 719468 in
  let era := z / 146097 in
  let doe := z - era * 146097 in
  let yoe := (doe - doe / 1460 + doe / 36524 - doe / 146096) / 365 in
  let doy := doe - (365 * yoe + yoe / 4 - yoe / 100) in
  let mp := (5 * doy + 2) / 153 in
  let d := doy - (153 * mp + 2) / 5 + 1 in
  let m := if mp <? 10 then mp + 3 else mp - 9 in
  let y := yoe + era * 400 in
  mkCalendarDate (if m <=? 2 then y + 1 else y) m d.

Definition digitChar (n : Z) : ascii := ascii_of_nat (48 + Z.to_nat (n mod 10)).

(** The last [width] decimal digits of [n], zero padded. *)
Fixpoint digits (width : nat) (n : Z) : string :=
  match width with
  | O => EmptyString
  | S w => (digits w (n / 10) ++ String (digitChar n) EmptyString)%string
  end.

(** The year of an ISO date: four digits from 0 to 9999, otherwise a sign
    and six digits. *)
Definition isoYear (y : Z) : string :=
  if andb (0 <=? y) (y <=? 9999) then digits 4 y
  else if y <? 0 then String "-"%char (digits 6 (- y))
  else String "+"%char (digits 6 y).

(** The date part of the ISO text, [YYYY-MM-DD]. *)
Definition isoDate (c : CalendarDate) : string :=
  (isoYear (year c) ++ "-" ++ digits 2 (month c) ++ "-" ++ digits 2 (day c))%string.

(** The time part, [HH:mm:ss.sss]. *)
Definition isoTime (ms : Z) : string :=
  (digits 2 (ms / 3600000) ++ ":" ++ digits 2 (ms / 60000 mod 60) ++ ":"
   ++ digits 2 (ms / 1000 mod 60) ++ "." ++ digits 3 (ms mod 1000))%string.

(** [Date.prototype.toISOString]. *)
Definition toISOString (d : Date) : string :=
  (isoDate (calendarOfDay (Day d)) ++ "T" ++ isoTime (TimeWithinDay d) ++ "Z")%string.

End DateTime.

Import Text DateTime.

(* ================================================================== *)
(** * The Customer record and the search state *)

(** Modelled from the spec: the closed enumeration [CustomerType] of the
    module [db], which the component imports. *)
Inductive CustomerType : Type := NEW | BUSY | YES | NO | TRIAL | TEST | FULL | NA.

(** Modelled from the spec: the text each [CustomerType] is stored as (the
    enumeration is stored as a string named like its member). *)
Definition typeText (t : CustomerType) : string :=
  match t with
  | NEW => "NEW" | BUSY => "BUSY" | YES => "YES" | NO => "NO"
  | TRIAL => "TRIAL" | TEST => "TEST" | FULL => "FULL" | NA => "NA"
  end.

Definition CustomerType_eqb (a b : CustomerType) : bool :=
  match a, b with
  | NEW, NEW | BUSY, BUSY | YES, YES | NO, NO
  | TRIAL, TRIAL | TEST, TEST | FULL, FULL | NA, NA => true
  | _, _ => false
  end.

(** Modelled from the spec: the interface [Customer] of the module [db]. *)
Record Customer : Type := mkCustomer {
  id : option Z;
  fullName : string;
  phone : string;
  note : string;
  customSearchField1 : string;
  type : CustomerType;
  lastCall : option Date;
  nextCall : option Date
}.

(** The eight search boxes ([searchId] ... [searchNextCall]).  A text box
    holds a string, empty when unused; the type selector holds a type or
    the empty choice. *)
Record SearchCriteria : Type := mkSearch {
  searchId : string;
  searchFullName : string;
  searchPhone : string;
  searchNote : string;
  searchCustomField : string;
  searchType : option CustomerType;
  searchLastCall : string;
  searchNextCall : string
}.

(** Every box as the component initialises it. *)
Definition noSearch : SearchCriteria :=
  mkSearch "" "" "" "" "" None "" "".

(* ================================================================== *)
(** * filteredCustomers *)

(** [String(customer.id ?? '')]. *)
Definition idText (i : option Z) : string :=
  match i with
  | Some n => ofNumber n
  | None => EmptyString
  end.

(** The bodies of [lastCallMatch] and [nextCallMatch]. *)
Definition callMatch (search : string) (call : option Date) : bool :=
  if negb (truthy search) then true
  else match call with
       | None => false
       | Some d => String.eqb (splitHead "T" (toISOString d)) search
       end.

(** The callback given to [customers.value.filter]. *)
Definition customerMatches (s : SearchCriteria) (customer : Customer) : bool :=
  let idMatch :=
    if truthy (searchId s) then includes (idText (id customer)) (searchId s) else true in
  let fullNameMatch :=
    includes (toLowerCase (fullName customer)) (toLowerCase (searchFullName s)) in
  let phoneMatch :=
    includes (toLowerCase (phone customer)) (toLowerCase (searchPhone s)) in
  let noteMatch :=
    includes (toLowerCase (note customer)) (toLowerCase (searchNote s)) in
  let customFieldMatch :=
    includes (toLowerCase (customSearchField1 customer)) (toLowerCase (searchCustomField s)) in
  let typeMatch :=
    match searchType s with
    | Some t => CustomerType_eqb (type customer) t
    | None => true
    end in
  let lastCallMatch := callMatch (searchLastCall s) (lastCall customer) in
  let nextCallMatch := callMatch (searchNextCall s) (nextCall customer) in
  idMatch && fullNameMatch && phoneMatch && noteMatch && customFieldMatch
  && typeMatch && lastCallMatch && nextCallMatch.

Definition filteredCustomers (customers : list Customer) (s : SearchCriteria)
  : list Customer :=
  List.filter (customerMatches s) customers.

(* ================================================================== *)
(** * Array.prototype.sort and the comparator *)

Module JSArray.
Section Sort.
Context {A : Type}.
Variable comparefn : A -> A -> Z.

(** One insertion: [pivot], the next element of the array, goes in front
    of the first element of the sorted [run] that it is strictly below,
    that is, for which [comparefn pivot e] is negative. *)
Fixpoint place (pivot : A) (run : list A) : list A :=
  match run with
  | [] => [pivot]
  | e :: rest =>
      if comparefn pivot e <? 0 then pivot :: run else e :: place pivot rest
  end.

(** [array.sort(comparefn)].  ECMAScript asks for a stable sort and leaves
    the calls of the comparator to the engine.  The model is a stable
    insertion sort, left to right, that puts one question only to the
    comparator, as the sort of V8 does (Chrome, Edge, Node): is a later
    element strictly below an earlier one, [comparefn later earlier < 0]?
    Where that question orders the elements, the answer of every stable
    sort is the same array ([sort_unique]). *)
Definition sort (array : list A) : list A :=
  fold_left (fun run pivot => place pivot run) array [].
End Sort.

(** [array.reverse()]. *)
Definition reverse {A : Type} (array : list A) : list A := rev array.
End JSArray.

(** The order the sort works with. *)
Section SortOrder.
Context {A : Type}.
Variable comparefn : A -> A -> Z.

(** The one question the sort asks: is [x] strictly below [y]? *)
Definition below (x y : A) : bool := comparefn x y <? 0.

(** Neither is strictly below the other. *)
Definition tied (x y : A) : bool := negb (below x y) && negb (below y x).

(** No element is strictly below an element before it. *)
Definition Ordered : list A -> Prop :=
  ForallOrdPairs (fun x y => below y x = false).

(** Every element is strictly below every element before it. *)
Definition Falling : list A -> Prop :=
  ForallOrdPairs (fun x y => below y x = true).

(** No element ties with a later one. *)
Fixpoint untied (l : list A) : bool :=
  match l with
  | [] => true
  | x :: rest => forallb (fun y => negb (tied x y)) rest && untied rest
  end.

(** The sort, from a run already built. *)
Definition sortFrom (run array : list A) : list A :=
  fold_left (fun run pivot => JSArray.place comparefn pivot run) array run.

End SortOrder.

(** [String.prototype.localeCompare] is the host's collation.  What
    ECMAScript requires of it is what is kept: it is a consistent
    comparison of all strings. *)
Class Collation : Type := {
  localeCompare : string -> string -> Z;
  localeCompare_refl : forall a, localeCompare a a = 0;
  localeCompare_antisym : forall a b, localeCompare a b < 0 <-> 0 < localeCompare b a;
  localeCompare_trans : forall a b c,
    localeCompare a b <= 0 -> localeCompare b c <= 0 -> localeCompare a c <= 0
}.

(** The column headers: [keyof Customer]. *)
Inductive CustomerKey : Type :=
| key_id | key_fullName | key_phone | key_note | key_customSearchField1
| key_type | key_lastCall | key_nextCall.

Inductive SortOrder : Type := asc | desc.

(** The head of the comparator, [if (valA == null) return 1;
    if (valB == null) return -1;], then [present] on two values. *)
Definition nullsAtEnd {V : Type} (present : V -> V -> Z) (valA valB : option V) : Z :=
  match valA, valB with
  | None, _ => 1
  | Some _, None => -1
  | Some x, Some y => present x y
  end.

(** The comparator given to [customersToSort.sort], for [sortKey = key]:
    first the two tests for a missing value, then, the key fixing the
    type of [a[key]], dates by the difference of [getTime], the numeric
    [id] by subtraction, text by [localeCompare]. *)
Definition comparefn {L : Collation} (key : CustomerKey) (a b : Customer) : Z :=
  match key with
  | key_lastCall => nullsAtEnd (fun x y => getTime x - getTime y) (lastCall a) (lastCall b)
  | key_nextCall => nullsAtEnd (fun x y => getTime x - getTime y) (nextCall a) (nextCall b)
  | key_id => nullsAtEnd (fun x y => x - y) (id a) (id b)
  | key_fullName => nullsAtEnd localeCompare (Some (fullName a)) (Some (fullName b))
  | key_phone => nullsAtEnd localeCompare (Some (phone a)) (Some (phone b))
  | key_note => nullsAtEnd localeCompare (Some (note a)) (Some (note b))
  | key_customSearchField1 =>
      nullsAtEnd localeCompare (Some (customSearchField1 a)) (Some (customSearchField1 b))
  | key_type => nullsAtEnd localeCompare (Some (typeText (type a))) (Some (typeText (type b)))
  end.

(** [customer[key] == null]. *)
Definition missing (key : CustomerKey) (customer : Customer) : bool :=
  match key with
  | key_id => match id customer with None => true | Some _ => false end
  | key_lastCall => match lastCall customer with None => true | Some _ => false end
  | key_nextCall => match nextCall customer with None => true | Some _ => false end
  | _ => false
  end.

(** Two records tie on a key when both lack it, or both have it and the
    comparator answers zero. *)
Definition ties {L : Collation} (key : CustomerKey) (a b : Customer) : bool :=
  match missing key a, missing key b with
  | true, true => true
  | false, false => comparefn key a b =? 0
  | _, _ => false
  end.

(** No two records of [rows] tie on [key]. *)
Definition noTies {L : Collation} (key : CustomerKey) (rows : list Customer) : bool :=
  untied (comparefn key) rows.

(** The value of [sortedAndFilteredCustomers]: the copy of the filtered
    rows, sorted when a key is chosen and reversed when the order is
    [desc]. *)
Definition sortedAndFilteredCustomers {L : Collation}
  (filtered : list Customer) (sortKey : option CustomerKey) (sortOrder : SortOrder)
  : list Customer :=
  let customersToSort := filtered in
  match sortKey with
  | Some key =>
      let sorted := JSArray.sort (comparefn key) customersToSort in
      match sortOrder with
      | desc => JSArray.reverse sorted
      | asc => sorted
      end
  | None => customersToSort
  end.

(** A collation to run examples with: text compared unit by unit. *)
Fixpoint codeUnitCompare (a b : string) : Z :=
  match a, b with
  | EmptyString, EmptyString => 0
  | EmptyString, String _ _ => -1
  | String _ _, EmptyString => 1
  | String x a', String y b' =>
      if (N_of_ascii x <? N_of_ascii y)%N then -1
      else if (N_of_ascii y <? N_of_ascii x)%N then 1
      else codeUnitCompare a' b'
  end.

(* ================================================================== *)
(** * sortBy *)

(** [sortKey] and [sortOrder]; [None] is the empty key the component
    starts with. *)
Record SortDirective : Type := mkDirective {
  sortKey : option CustomerKey;
  sortOrder : SortOrder
}.

Definition initialDirective : SortDirective := mkDirective None asc.

Definition CustomerKey_eqb (a b : CustomerKey) : bool :=
  match a, b with
  | key_id, key_id | key_fullName, key_fullName | key_phone, key_phone
  | key_note, key_note | key_customSearchField1, key_customSearchField1
  | key_type, key_type | key_lastCall, key_lastCall | key_nextCall, key_nextCall => true
  | _, _ => false
  end.

(** [sortKey.value === key]. *)
Definition isSortKey (d : SortDirective) (key : CustomerKey) : bool :=
  match sortKey d with
  | Some k => CustomerKey_eqb k key
  | None => false
  end.

(** [sortOrder.value === 'asc' ? 'desc' : 'asc']. *)
Definition opposite (order : SortOrder) : SortOrder :=
  match order with
  | asc => desc
  | desc => asc
  end.

Definition sortBy (key : CustomerKey) (d : SortDirective) : SortDirective :=
  if isSortKey d key then
    mkDirective (sortKey d) (opposite (sortOrder d))
  else
    mkDirective (Some key) asc.

(** The rows on screen for a snapshot, the search boxes and a directive. *)
Definition displayed {L : Collation}
  (customers : list Customer) (s : SearchCriteria) (d : SortDirective) : list Customer :=
  sortedAndFilteredCustomers (filteredCustomers customers s) (sortKey d) (sortOrder d).

(* ================================================================== *)
(** * The forms, the import and the Record Store *)

(** A value [JSON.parse] returns; its numbers are taken to be integers. *)
#[local] Unset Elimination Schemes.
Inductive JSON : Type :=
| JNull
| JBool (b : bool)
| JNumber (n : Z)
| JString (s : string)
| JArray (items : list JSON)
| JObject (members : list (string * JSON)).
#[local] Set Elimination Schemes.

(** What [JSON.parse] does with the text of the file: it throws a
    [SyntaxError] or returns a value. *)
Inductive Parsed : Type :=
| SyntaxError
| Value (v : JSON).

(** [new Date(arg)], kept as written. *)
Inductive ImportedDate : Type := NewDate (arg : JSON).

(** An object the import builds: [{...c, lastCall: ..., nextCall: ...}]. *)
Record ImportedRow : Type := mkRow {
  spread : list (string * JSON);
  importedLastCall : option ImportedDate;
  importedNextCall : option ImportedDate
}.

(** Modelled from the spec: the operations of the Record Store
    ([db.customers], of the module [db]) that the component calls. *)
Inductive StoreCall : Type :=
| store_add (record : Customer)
| store_update (key : option Z) (record : Customer)
| store_delete (key : Z)
| store_clear
| store_bulkAdd (rows : list ImportedRow).

(** The part of the component the handlers touch: the two forms, and
    what went out of the component, oldest first: the [alert] dialogs and
    the calls to the Record Store. *)
Record Component : Type := mkComponent {
  newCustomer : Customer;
  editingCustomer : option Customer;
  alerts : list string;
  storeCalls : list StoreCall
}.

(** The texts of the two [alert] dialogs. *)
Definition requiredAlert : string := "Full Name and Phone are required.".
Definition invalidAlert : string := "Invalid JSON file.".

(** The add form as it starts and as [addCustomer] resets it; the pending
    record has no [id]. *)
Definition blankCustomer : Customer :=
  mkCustomer None "" "" "" "" NEW None None.

Definition addCustomer (c : Component) : Component :=
  if negb (truthy (fullName (newCustomer c))) || negb (truthy (phone (newCustomer c))) then
    mkComponent (newCustomer c) (editingCustomer c)
                (alerts c ++ [requiredAlert]) (storeCalls c)
  else
    mkComponent blankCustomer (editingCustomer c) (alerts c)
                (storeCalls c ++ [store_add (newCustomer c)]).

Definition startEditing (customer : Customer) (c : Component) : Component :=
  mkComponent (newCustomer c) (Some customer) (alerts c) (storeCalls c).

Definition updateCustomer (c : Component) : Component :=
  match editingCustomer c with
  | Some edited =>
      mkComponent (newCustomer c) None (alerts c)
                  (storeCalls c ++ [store_update (id edited) edited])
  | None => c
  end.

(** JavaScript's truthiness of a parsed value. *)
Definition truthyJSON (v : JSON) : bool :=
  match v with
  | JNull => false
  | JBool b => b
  | JNumber n => negb (n =? 0)
  | JString s => truthy s
  | JArray _ | JObject _ => true
  end.

Fixpoint member (name : string) (members : list (string * JSON)) : option JSON :=
  match members with
  | [] => None
  | (k, v) :: rest => if String.eqb k name then Some v else member name rest
  end.

Fixpoint indexed {V : Type} (from : nat) (items : list V) : list (string * V) :=
  match items with
  | [] => []
  | v :: rest => (ofNumber (Z.of_nat from), v) :: indexed (S from) rest
  end.

Fixpoint characters (s : string) : list JSON :=
  match s with
  | EmptyString => []
  | String ch rest => JString (String ch EmptyString) :: characters rest
  end.

(** The own properties [{...c}] copies. *)
Definition ownProperties (c : JSON) : list (string * JSON) :=
  match c with
  | JObject members => members
  | JArray items => indexed 0 items
  | JString s => indexed 0 (characters s)
  | JNull | JBool _ | JNumber _ => []
  end.

(** [c.name]: [None] when reading the property throws a [TypeError] ([c]
    is null), otherwise the value, [Some None] for [undefined]. *)
Definition property (name : string) (c : JSON) : option (option JSON) :=
  match c with
  | JNull => None
  | JObject members => Some (member name members)
  | _ => Some None
  end.

(** [c.name ? new Date(c.name) : undefined]. *)
Definition importedDate (name : string) (c : JSON) : option (option ImportedDate) :=
  match property name c with
  | None => None
  | Some (Some v) => Some (if truthyJSON v then Some (NewDate v) else None)
  | Some None => Some None
  end.

Definition isDateName (entry : string * JSON) : bool :=
  String.eqb (fst entry) "lastCall" || String.eqb (fst entry) "nextCall".

(** The callback of [.map]; [None] when it throws. *)
Definition importRow (c : JSON) : option ImportedRow :=
  match importedDate "lastCall" c, importedDate "nextCall" c with
  | Some l, Some n =>
      Some (mkRow (List.filter (fun e => negb (isDateName e)) (ownProperties c)) l n)
  | _, _ => None
  end.

Fixpoint mapRows (items : list JSON) : option (list ImportedRow) :=
  match items with
  | [] => Some []
  | c :: rest =>
      match importRow c, mapRows rest with
      | Some row, Some rows => Some (row :: rows)
      | _, _ => None
      end
  end.

(** [(JSON.parse(text) as any[]).map(...)]: [None] when the parse, the
    call of [.map] (the value is no array) or the callback throws. *)
Definition importedCustomers (parsed : Parsed) : option (list ImportedRow) :=
  match parsed with
  | Value (JArray items) => mapRows items
  | Value _ => None
  | SyntaxError => None
  end.

(** [importData], once the file is read.  [file] is what [JSON.parse]
    makes of its text, [None] when no file was chosen; [confirmed] is the
    answer to the [confirm] dialog, should it be shown. *)
Definition importData (file : option Parsed) (confirmed : bool) (c : Component) : Component :=
  match file with
  | None => c
  | Some parsed =>
      match importedCustomers parsed with
      | Some rows =>
          if confirmed then
            mkComponent (newCustomer c) (editingCustomer c) (alerts c)
                        (storeCalls c ++ [store_clear; store_bulkAdd rows])
          else c
      | None =>
          mkComponent (newCustomer c) (editingCustomer c)
                      (alerts c ++ [invalidAlert]) (storeCalls c)
      end
  end.

(** The import file the spec describes: a JSON array of Customer objects,
    each field named as in the record, the dates in the text form of
    [toISOString]. *)
Definition isText (v : option JSON) : Prop := exists s, v = Some (JString s).

Definition isTypeText (v : option JSON) : Prop := exists t, v = Some (JString (typeText t)).

Definition isOptionalNumber (v : option JSON) : Prop :=
  v = None \/ exists n, v = Some (JNumber n).

Definition isOptionalDate (v : option JSON) : Prop :=
  v = None \/ exists d, v = Some (JString (toISOString d)).

Definition CustomerObject (v : JSON) : Prop :=
  exists members,
    v = JObject members
    /\ isOptionalNumber (member "id" members)
    /\ isText (member "fullName" members)
    /\ isText (member "phone" members)
    /\ isText (member "note" members)
    /\ isText (member "customSearchField1" members)
    /\ isTypeText (member "type" members)
    /\ isOptionalDate (member "lastCall" members)
    /\ isOptionalDate (member "nextCall" members).

Definition matchesSchema (v : JSON) : Prop :=
  exists items, v = JArray items /\ Forall CustomerObject items.

(** What makes the import throw before the [confirm] dialog: the text is
    no JSON, the value is no array, or an element of the array is null. *)
Definition Rejected (parsed : Parsed) : Prop :=
  parsed = SyntaxError
  \/ (exists v, parsed = Value v /\ forall items, v <> JArray items)
  \/ (exists items, parsed = Value (JArray items) /\ In JNull items).

(* ================================================================== *)
(** * Arrays by reference *)

(** The arrays of the heap, by address.  [customers.value] and
    [filteredCustomers.value] are addresses; [[...a]] allocates, [sort]
    and [reverse] write in place. *)
Abbreviation Heap := (list (list Customer)).

Definition copyArray (h : Heap) (rows : list Customer) : Heap * nat :=
  (h ++ [rows], length h).

Definition inPlace (f : list Customer -> list Customer) (address : nat) (h : Heap) : Heap :=
  match h !! address with
  | Some rows => <[address := f rows]> h
  | None => h
  end.

(** The getter of [sortedAndFilteredCustomers] on the heap: the new heap
    and the address of the array it returns; [None] when [filtered] is no
    array of the heap. *)
Definition sortedAndFilteredCustomers_getter {L : Collation}
  (h : Heap) (filtered : nat) (key : option CustomerKey) (order : SortOrder)
  : option (Heap * nat) :=
  match h !! filtered with
  | None => None
  | Some rows =>
      let (h1, customersToSort) := copyArray h rows in
      match key with
      | Some k =>
          let h2 := inPlace (JSArray.sort (comparefn k)) customersToSort h1 in
          let h3 := match order with
                    | desc => inPlace JSArray.reverse customersToSort h2
                    | asc => h2
                    end in
          Some (h3, customersToSort)
      | None => Some (h1, customersToSort)
      end
  end.

(* ================================================================== *)
(** * What the search boxes ask for, in the words of the spec *)

(** [t] occurs in [s]. *)
Definition contains (s t : string) : Prop :=
  exists before after, s = (before ++ t ++ after)%string.

(** Some stretch of [s] is [t] up to the case of its letters. *)
Definition containsIgnoringCase (s t : string) : Prop :=
  exists before stretch after,
    s = (before ++ stretch ++ after)%string /\ toLowerCase stretch = toLowerCase t.

Definition idFilterHolds (box : string) (i : option Z) : Prop :=
  box = EmptyString \/ exists n, i = Some n /\ contains (ofNumber n) box.

Definition textFilterHolds (box field : string) : Prop :=
  box = EmptyString \/ containsIgnoringCase field box.

Definition typeFilterHolds (box : option CustomerType) (t : CustomerType) : Prop :=
  box = None \/ box = Some t.

(** The record has the call date, and its calendar date, whatever the time
    of day, is the date of the box. *)
Definition dateFilterHolds (box : string) (call : option Date) : Prop :=
  box = EmptyString \/ exists d, call = Some d /\ isoDate (calendarOfDay (Day d)) = box.

Definition satisfies (s : SearchCriteria) (c : Customer) : Prop :=
  idFilterHolds (searchId s) (id c)
  /\ textFilterHolds (searchFullName s) (fullName c)
  /\ textFilterHolds (searchPhone s) (phone c)
  /\ textFilterHolds (searchNote s) (note c)
  /\ textFilterHolds (searchCustomField s) (customSearchField1 c)
  /\ typeFilterHolds (searchType s) (type c)
  /\ dateFilterHolds (searchLastCall s) (lastCall c)
  /\ dateFilterHolds (searchNextCall s) (nextCall c).

(** [kept] is [all] without the elements that fail [P], order untouched. *)
Inductive Selects {A : Type} (P : A -> Prop) : list A -> list A -> Prop :=
| Selects_nil : Selects P [] []
| Selects_keep x all kept : P x -> Selects P all kept -> Selects P (x :: all) (x :: kept)
| Selects_drop x all kept : ~ P x -> Selects P all kept -> Selects P (x :: all) kept.

(** Every record that lacks the key stands after every record that has
    it. *)
Definition MissingLast (key : CustomerKey) (rows : list Customer) : Prop :=
  forall i j x y,
    nth_error rows i = Some x -> nth_error rows j = Some y ->
    missing key x = true -> missing key y = false -> (j < i)%nat.

(** Every record that lacks the key stands before every record that has
    it. *)
Definition MissingFirst (key : CustomerKey) (rows : list Customer) : Prop :=
  forall i j x y,
    nth_error rows i = Some x -> nth_error rows j = Some y ->
    missing key x = true -> missing key y = false -> (i < j)%nat.

(* ================================================================== *)
(** * Sample records *)

(** 2024-01-05 and 2023-06-01, at midnight UTC. *)
Definition jan5_2024 : Date := 1704412800000.
Definition jun1_2023 : Date := 1685577600000.

Definition ann : Customer :=
  mkCustomer (Some 1) "Ann" "1" "" "" NEW (Some jan5_2024) None.
Definition bob : Customer :=
  mkCustomer (Some 2) "bob" "2" "" "" TRIAL None None.
Definition cyd : Customer :=
  mkCustomer (Some 3) "Cyd" "3" "" "" BUSY (Some jun1_2023) None.
(** Called the same day as [ann], later in the day. *)
Definition amy : Customer :=
  mkCustomer (Some 4) "Amy" "4" "" "" NEW (Some (jan5_2024 + 3600000)) None.

(* ================================================================== *)
(** * Orders of rows and searches compared *)

(** Of two records, the one that has the key stands first ascending, and
    two that have it stand in the order of the comparator. *)
Definition AscendingBy {L : Collation} (key : CustomerKey) (rows : list Customer) : Prop :=
  forall i j x y,
    (i < j)%nat -> nth_error rows i = Some x -> nth_error rows j = Some y ->
    missing key y = false ->
    missing key x = false /\ comparefn key x y <= 0.

Definition DescendingBy {L : Collation} (key : CustomerKey) (rows : list Customer) : Prop :=
  forall i j x y,
    (i < j)%nat -> nth_error rows i = Some x -> nth_error rows j = Some y ->
    missing key x = false ->
    missing key y = false /\ comparefn key y x <= 0.

(** The boxes of [narrow] ask at least what the boxes of [wide] ask: each
    text box of [wide] occurs in the box of [narrow] (up to letter case,
    but for the id), and the type and the dates of [wide] are unset or
    those of [narrow]. *)
Definition narrows (narrow wide : SearchCriteria) : Prop :=
  contains (searchId narrow) (searchId wide)
  /\ contains (toLowerCase (searchFullName narrow)) (toLowerCase (searchFullName wide))
  /\ contains (toLowerCase (searchPhone narrow)) (toLowerCase (searchPhone wide))
  /\ contains (toLowerCase (searchNote narrow)) (toLowerCase (searchNote wide))
  /\ contains (toLowerCase (searchCustomField narrow)) (toLowerCase (searchCustomField wide))
  /\ (searchType wide = None \/ searchType wide = searchType narrow)
  /\ (searchLastCall wide = EmptyString \/ searchLastCall wide = searchLastCall narrow)
  /\ (searchNextCall wide = EmptyString \/ searchNextCall wide = searchNextCall narrow).

(* ================================================================== *)
(** * The other handlers of the component *)

Definition cancelEdit (c : Component) : Component :=
  mkComponent (newCustomer c) None (alerts c) (storeCalls c).

(** [deleteCustomer(id)]; [confirmed] is the answer to its [confirm]
    dialog. *)
Definition deleteCustomer (key : Z) (confirmed : bool) (c : Component) : Component :=
  if confirmed then
    mkComponent (newCustomer c) (editingCustomer c) (alerts c)
                (storeCalls c ++ [store_delete key])
  else c.

(** What the user can do to the component.  Typing stands for any input
    to a form, the [v-model] bindings and the date setters alike: the form
    then holds some record.  The edit form is there only while a record is
    edited. *)
Inductive Action : Type :=
| typeNew (pending : Customer)
| typeEdit (edited : Customer)
| submitAdd
| clickEdit (customer : Customer)
| submitUpdate
| clickCancel
| clickDelete (key : Z) (confirmed : bool)
| chooseFile (file : option Parsed) (confirmed : bool).

Definition act (a : Action) (c : Component) : Component :=
  match a with
  | typeNew pending => mkComponent pending (editingCustomer c) (alerts c) (storeCalls c)
  | typeEdit edited =>
      match editingCustomer c with
      | Some _ => mkComponent (newCustomer c) (Some edited) (alerts c) (storeCalls c)
      | None => c
      end
  | submitAdd => addCustomer c
  | clickEdit customer => startEditing customer c
  | submitUpdate => updateCustomer c
  | clickCancel => cancelEdit c
  | clickDelete key confirmed => deleteCustomer key confirmed c
  | chooseFile file confirmed => importData file confirmed c
  end.

Definition run (actions : list Action) (c : Component) : Component :=
  fold_left (fun c a => act a c) actions c.


(** The header clicks, one after the other. *)
Definition clicks (keys : list CustomerKey) (d : SortDirective) : SortDirective :=
  fold_left (fun d key => sortBy key d) keys d.

(* ================================================================== *)
(** * The earlier component *)

(** The four search boxes of the earlier version of the component. *)
Record EarlierSearch : Type := mkEarlierSearch {
  earlierFullName : string;
  earlierPhone : string;
  earlierCustomField : string;
  earlierType : option CustomerType
}.

(** [filteredCustomers] of the earlier version. *)
Definition earlierFilteredCustomers (customers : list Customer) (s : EarlierSearch)
  : list Customer :=
  List.filter
    (fun customer =>
       let fullNameMatch :=
         includes (toLowerCase (fullName customer)) (toLowerCase (earlierFullName s)) in
       let phoneMatch :=
         includes (toLowerCase (phone customer)) (toLowerCase (earlierPhone s)) in
       let customFieldMatch :=
         includes (toLowerCase (customSearchField1 customer))
                  (toLowerCase (earlierCustomField s)) in
       let typeMatch :=
         match earlierType s with
         | Some t => CustomerType_eqb (type customer) t
         | None => true
         end in
       fullNameMatch && phoneMatch && customFieldMatch && typeMatch)
    customers.

(* ================================================================== *)
(** * useTheme *)

Module Theme.

Definition LIGHT : string := "light".
Definition DARK : string := "dark".

(** What the composable reads and writes outside itself: the [theme] item
    of [localStorage] and the [data-theme] attribute of the document. *)
Record Page : Type := mkPage {
  storedTheme : option string;
  dataTheme : option string
}.

(** The body of [watchEffect]. *)
Definition effect (theme : string) (p : Page) : Page :=
  mkPage (Some theme) (Some theme).

(** [useTheme()]: the value of [theme] and the page once the effect has
    run.  The stored item is taken as it is when it is a non-empty
    text. *)
Definition useTheme (p : Page) : string * Page :=
  let theme :=
    match storedTheme p with
    | Some stored => if truthy stored then stored else LIGHT
    | None => LIGHT
    end in
  (theme, effect theme p).

(** [toggleTheme()], and the effect that follows the change. *)
Definition toggleTheme (state : string * Page) : string * Page :=
  let theme := if String.eqb (fst state) LIGHT then DARK else LIGHT in
  (theme, effect theme (snd state)).

Fixpoint toggles (n : nat) (state : string * Page) : string * Page :=
  match n with
  | O => state
  | S m => toggleTheme (toggles m state)
  end.

End Theme.

(* ================================================================== *)
(** * Date objects, the date inputs and the export *)

(** A [Date] object: a time value, or the invalid date. *)
Inductive JSDate : Type :=
| ValidDate (t : Date)
| InvalidDate.

(** [date.getTime()]; [None] is NaN. *)
Definition getTimeOf (date : JSDate) : option Z :=
  match date with
  | ValidDate t => Some (getTime t)
  | InvalidDate => None
  end.

(** [date.toISOString()]; [None] when it throws a [RangeError]. *)
Definition toISOStringOf (date : JSDate) : option string :=
  match date with
  | ValidDate t => Some (toISOString t)
  | InvalidDate => None
  end.

(** The largest time value of a [Date], 100 000 000 days. *)
Definition maxTime : Z := 8640000000000000.

(** The day number of a calendar date: ECMAScript's [MakeDay], the way
    back from [calendarOfDay]. *)
Definition dayOfCalendar (c : CalendarDate) : Z :=
  let y := if month c <=? 2 then year c - 1 else year c in
  let era := y / 400 in
  let yoe := y - era * 400 in
  let mp := if month c <=? 2 then month c + 9 else month c - 3 in
  let doy := (153 * mp + 2) / 5 + day c - 1 in
  let doe := yoe * 365 + yoe / 4 - yoe / 100 + doy in
  era * 146097 + doe - 719468.

Definition leapYear (y : Z) : bool :=
  (y mod 4 =? 0) && (negb (y mod 100 =? 0) || (y mod 400 =? 0)).

Definition daysInMonth (y m : Z) : Z :=
  if m =? 2 then (if leapYear y then 29 else 28)
  else if (m =? 4) || (m =? 6) || (m =? 9) || (m =? 11) then 30
  else 31.

(** A date of the calendar: what a date input can hold. *)
Definition validCalendarDate (c : CalendarDate) : bool :=
  (1 <=? month c) && (month c <=? 12)
  && (1 <=? day c) && (day c <=? daysInMonth (year c) (month c)).

(** [new Date(text)] is the host's reading of a text.  What ECMAScript
    fixes, and what is kept, is the reading of its own formats: the text
    of [toISOString] gives back the time value, and a date alone, with a
    year of four digits, is midnight UTC of that day. *)
Class DateParser : Type := {
  Date_parse : string -> JSDate;
  Date_parse_toISOString : forall t,
    - maxTime <= t <= maxTime -> Date_parse (toISOString t) = ValidDate t;
  Date_parse_date : forall c,
    validCalendarDate c = true -> 0 <= year c <= 9999 ->
    Date_parse (isoDate c) = ValidDate (dayOfCalendar c * msPerDay)
}.

(** The value of a date field as [safeFormatForInput] may meet it:
    [undefined] or [null], a text, or a [Date] object. *)
Inductive DateField : Type :=
| NoDate
| DateText (s : string)
| DateObject (date : JSDate).

(** The tail of [safeFormatForInput], from [isNaN(date.getTime())] on;
    [None] when it throws. *)
Definition formatDate (date : JSDate) : option string :=
  match getTimeOf date with
  | None => Some EmptyString
  | Some _ =>
      match toISOStringOf date with
      | Some text => Some (splitHead "T" text)
      | None => None
      end
  end.

(** [safeFormatForInput(d)]; [None] when it throws. *)
Definition safeFormatForInput {P : DateParser} (d : DateField) : option string :=
  match d with
  | NoDate => Some EmptyString
  | DateText s => if truthy s then formatDate (Date_parse s) else Some EmptyString
  | DateObject date => formatDate date
  end.

(** The getters of the earlier version of the component,
    [d ? d.toISOString().split('T')[0] : '']; [None] when it throws: a
    text has no [toISOString], and the invalid date throws from it. *)
Definition earlierFormat (d : DateField) : option string :=
  match d with
  | NoDate => Some EmptyString
  | DateText s => if truthy s then None else Some EmptyString
  | DateObject date =>
      match toISOStringOf date with
      | Some text => Some (splitHead "T" text)
      | None => None
      end
  end.

(** What the setters of [newLastCall], [newNextCall], [editingLastCall]
    and [editingNextCall] assign: [val ? new Date(val) : undefined]. *)
Definition dateOfInput {P : DateParser} (val : string) : DateField :=
  if truthy val then DateObject (Date_parse val) else NoDate.

(** The call date of a record, as a field. *)
Definition fieldOfCall (call : option Date) : DateField :=
  match call with
  | Some d => DateObject (ValidDate d)
  | None => NoDate
  end.

(** The getters of [newLastCall] and [editingLastCall]; without a record
    in the edit form, [editingCustomer.value?.lastCall] is [undefined]. *)
Definition newLastCall {P : DateParser} (c : Component) : option string :=
  safeFormatForInput (fieldOfCall (lastCall (newCustomer c))).

Definition editingLastCall {P : DateParser} (c : Component) : option string :=
  safeFormatForInput
    match editingCustomer c with
    | Some edited => fieldOfCall (lastCall edited)
    | None => NoDate
    end.

(** The getters of [newNextCall] and [editingNextCall]. *)
Definition newNextCall {P : DateParser} (c : Component) : option string :=
  safeFormatForInput (fieldOfCall (nextCall (newCustomer c))).

Definition editingNextCall {P : DateParser} (c : Component) : option string :=
  safeFormatForInput
    match editingCustomer c with
    | Some edited => fieldOfCall (nextCall edited)
    | None => NoDate
    end.

(** What a date input shows for a call date: the calendar date, or
    nothing. *)
Definition shownDate (call : option Date) : string :=
  match call with
  | Some t => isoDate (calendarOfDay (Day t))
  | None => EmptyString
  end.

(** A property that [JSON.stringify] writes when it has a value. *)
Definition optionalMember (name : string) (value : option JSON) : list (string * JSON) :=
  match value with
  | Some v => [(name, v)]
  | None => []
  end.

(** What [JSON.stringify] writes for a record: its properties, but those
    that are [undefined]; a date by its [toISOString]. *)
Definition customerJSON (c : Customer) : JSON :=
  JObject
    (optionalMember "id" (option_map JNumber (id c))
     ++ [("fullName"%string, JString (fullName c));
         ("phone"%string, JString (phone c));
         ("note"%string, JString (note c));
         ("customSearchField1"%string, JString (customSearchField1 c));
         ("type"%string, JString (typeText (type c)))]
     ++ optionalMember "lastCall" (option_map (fun d => JString (toISOString d)) (lastCall c))
     ++ optionalMember "nextCall" (option_map (fun d => JString (toISOString d)) (nextCall c))).

(** [exportData]: the value whose text goes into [customers.json], for
    the records [db.customers.toArray()] gives. *)
Definition exportData (allCustomers : list Customer) : JSON :=
  JArray (map customerJSON allCustomers).

Definition typeOfText (s : string) : option CustomerType :=
  if String.eqb s "NEW" then Some NEW
  else if String.eqb s "BUSY" then Some BUSY
  else if String.eqb s "YES" then Some YES
  else if String.eqb s "NO" then Some NO
  else if String.eqb s "TRIAL" then Some TRIAL
  else if String.eqb s "TEST" then Some TEST
  else if String.eqb s "FULL" then Some FULL
  else if String.eqb s "NA" then Some NA
  else None.

(** The record a stored row is read as; [None] when a field is not of its
    type, or a date is not a date. *)
Definition rowText (name : string) (row : ImportedRow) : option string :=
  match member name (spread row) with
  | Some (JString s) => Some s
  | _ => None
  end.

Definition rowId (row : ImportedRow) : option (option Z) :=
  match member "id" (spread row) with
  | None => Some None
  | Some (JNumber n) => Some (Some n)
  | Some _ => None
  end.

Definition rowDate {P : DateParser} (d : option ImportedDate) : option (option Date) :=
  match d with
  | None => Some None
  | Some (NewDate (JString s)) =>
      match Date_parse s with
      | ValidDate t => Some (Some t)
      | InvalidDate => None
      end
  | Some (NewDate _) => None
  end.

Definition rowCustomer {P : DateParser} (row : ImportedRow) : option Customer :=
  match rowId row, rowText "fullName" row, rowText "phone" row, rowText "note" row,
        rowText "customSearchField1" row, rowText "type" row,
        rowDate (importedLastCall row), rowDate (importedNextCall row) with
  | Some i, Some name, Some ph, Some nt, Some custom, Some ty, Some lc, Some nc =>
      match typeOfText ty with
      | Some t => Some (mkCustomer i name ph nt custom t lc nc)
      | None => None
      end
  | _, _, _, _, _, _, _, _ => None
  end.

(** The row the import builds from the exported object of a record. *)
Definition exportedDate (call : option Date) : option ImportedDate :=
  option_map (fun d => NewDate (JString (toISOString d))) call.

Definition exportedRow (c : Customer) : ImportedRow :=
  mkRow (optionalMember "id" (option_map JNumber (id c))
         ++ [("fullName"%string, JString (fullName c));
             ("phone"%string, JString (phone c));
             ("note"%string, JString (note c));
             ("customSearchField1"%string, JString (customSearchField1 c));
             ("type"%string, JString (typeText (type c)))])
        (exportedDate (lastCall c)) (exportedDate (nextCall c)).

(** Both call dates of a record are time values a [Date] can hold. *)
Definition callsInRange (c : Customer) : Prop :=
  (forall d, lastCall c = Some d -> - maxTime <= d <= maxTime)
  /\ (forall d, nextCall c = Some d -> - maxTime <= d <= maxTime).

(** A reader of the two formats, and of nothing else. *)
Definition digitValue (c : ascii) : option Z :=
  let n := Z.of_nat (nat_of_ascii c) in
  if (48 <=? n) && (n <=? 57) then Some (n - 48) else None.

Fixpoint readDigits (width : nat) (acc : Z) (s : string) : option (Z * string) :=
  match width with
  | O => Some (acc, s)
  | S w =>
      match s with
      | String c rest =>
          match digitValue c with
          | Some v => readDigits w (acc * 10 + v) rest
          | None => None
          end
      | EmptyString => None
      end
  end.

Definition expect (c : ascii) (s : string) : option string :=
  match s with
  | String x rest => if Ascii.eqb x c then Some rest else None
  | EmptyString => None
  end.

Definition readYear (s : string) : option (Z * string) :=
  match s with
  | String "+" rest => readDigits 6 0 rest
  | String "-" rest =>
      match readDigits 6 0 rest with
      | Some (y, rest') => Some (- y, rest')
      | None => None
      end
  | _ => readDigits 4 0 s
  end.

Definition readDate (s : string) : option (CalendarDate * string) :=
  '(y, s) ← readYear s;
  s ← expect "-" s;
  '(m, s) ← readDigits 2 0 s;
  s ← expect "-" s;
  '(d, s) ← readDigits 2 0 s;
  if (1 <=? m) && (m <=? 12) && (1 <=? d) && (d <=? 31)
  then Some (mkCalendarDate y m d, s) else None.

Definition readTime (s : string) : option Z :=
  '(h, s) ← readDigits 2 0 s;
  s ← expect ":" s;
  '(mi, s) ← readDigits 2 0 s;
  s ← expect ":" s;
  '(sec, s) ← readDigits 2 0 s;
  s ← expect "." s;
  '(ms, s) ← readDigits 3 0 s;
  s ← expect "Z" s;
  if (h <=? 23) && (mi <=? 59) && (sec <=? 59) && negb (truthy s)
  then Some (((h * 60 + mi) * 60 + sec) * 1000 + ms) else None.

Definition isoParse (s : string) : JSDate :=
  match readDate s with
  | Some (c, EmptyString) => ValidDate (dayOfCalendar c * msPerDay)
  | Some (c, String "T" rest) =>
      match readTime rest with
      | Some ms => ValidDate (dayOfCalendar c * msPerDay + ms)
      | None => InvalidDate
      end
  | _ => InvalidDate
  end.

(* ================================================================== *)
(** * Facts about the text built-ins *)

Section TextFacts.

Lemma startsWith_nil s : startsWith s EmptyString = true.
Proof. destruct s; reflexivity. Qed.

Lemma includes_nil s : includes s EmptyString = true.
Proof. destruct s; simpl; rewrite ?startsWith_nil; reflexivity. Qed.

Lemma truthy_false s : truthy s = false <-> s = EmptyString.
Proof. destruct s; simpl; split; congruence. Qed.

Lemma startsWith_iff s t :
  startsWith s t = true <-> exists after, s = (t ++ after)%string.
Proof.
  revert s. induction t as [|b t IH]; intros s.
  - rewrite startsWith_nil. split; [exists s; reflexivity | reflexivity].
  - destruct s as [|a s]; simpl.
    + split; [discriminate | intros [after H]; discriminate].
    + rewrite andb_true_iff, Ascii.eqb_eq, IH. split.
      * intros [-> [after ->]]. exists after. reflexivity.
      * intros [after H]. injection H as -> ->. split; [reflexivity | eauto].
Qed.

Lemma includes_iff s t : includes s t = true <-> contains s t.
Proof.
  unfold contains. induction s as [|a s IH].
  - cbn [includes]. rewrite orb_false_r, startsWith_iff. split.
    + intros [after H]. exists EmptyString, after. exact H.
    + intros [before [after H]]. destruct before; simpl in H; [eauto | discriminate].
  - cbn [includes]. rewrite orb_true_iff, IH, startsWith_iff. split.
    + intros [[after H] | [before [after H]]].
      * exists EmptyString, after. exact H.
      * exists (String a before), after. simpl. now rewrite H.
    + intros [before [after H]]. destruct before as [|b before]; simpl in H.
      * left. eauto.
      * right. injection H as -> ->. eauto.
Qed.

Lemma toLowerCase_app s t :
  toLowerCase (s ++ t) = (toLowerCase s ++ toLowerCase t)%string.
Proof. induction s as [|a s IH]; simpl; [reflexivity | now rewrite IH]. Qed.

Lemma toLowerCase_split s x y :
  toLowerCase s = (x ++ y)%string ->
  exists s1 s2, s = (s1 ++ s2)%string /\ toLowerCase s1 = x /\ toLowerCase s2 = y.
Proof.
  revert s. induction x as [|b x IH]; intros s H.
  - exists EmptyString, s. auto.
  - destruct s as [|a s]; simpl in H; [discriminate |].
    injection H as Hb H. destruct (IH _ H) as [s1 [s2 [-> [<- <-]]]].
    exists (String a s1), s2. simpl. now rewrite Hb.
Qed.

Lemma includes_toLowerCase_iff field box :
  includes (toLowerCase field) (toLowerCase box) = true <-> containsIgnoringCase field box.
Proof.
  rewrite includes_iff. unfold contains, containsIgnoringCase. split.
  - intros [before [after H]].
    destruct (toLowerCase_split _ _ _ H) as [s1 [rest [-> [_ Hrest]]]].
    destruct (toLowerCase_split _ _ _ Hrest) as [s2 [s3 [-> [H2 _]]]].
    exists s1, s2, s3. auto.
  - intros [before [stretch [after [-> H]]]].
    exists (toLowerCase before), (toLowerCase after).
    now rewrite !toLowerCase_app, H.
Qed.

(** An empty box asks nothing: the stretch may be empty. *)
Lemma containsIgnoringCase_nil field : containsIgnoringCase field EmptyString.
Proof. exists EmptyString, EmptyString, field. auto. Qed.

Lemma splitHead_app sep s rest :
  splitHead sep s = s -> splitHead sep (s ++ String sep rest) = s.
Proof.
  induction s as [|a s IH]; simpl.
  - now rewrite Ascii.eqb_refl.
  - destruct (Ascii.eqb a sep); [discriminate |].
    intros H. injection H as H. now rewrite IH.
Qed.

Lemma splitHead_free_app sep s t :
  splitHead sep s = s -> splitHead sep t = t -> splitHead sep (s ++ t) = (s ++ t)%string.
Proof.
  induction s as [|a s IH]; simpl; [auto |].
  destruct (Ascii.eqb a sep); [discriminate |].
  intros H Ht. injection H as H. now rewrite IH.
Qed.

End TextFacts.

(* ================================================================== *)
(** * Facts about the ISO text of a date *)

Section DateFacts.

Lemma digitChar_not_T n : Ascii.eqb (digitChar n) "T" = false.
Proof.
  unfold digitChar.
  assert (H : (Z.to_nat (n mod 10) < 10)%nat)
    by (pose proof (Z.mod_pos_bound n 10 eq_refl); lia).
  destruct (Z.to_nat (n mod 10)) as [|k]; [reflexivity |].
  do 9 (destruct k as [|k]; [reflexivity |]). lia.
Qed.

Lemma digits_no_T width n : splitHead "T" (digits width n) = digits width n.
Proof.
  revert n. induction width as [|w IH]; intros n; [reflexivity |].
  cbn [digits]. apply splitHead_free_app; [apply IH |].
  cbn [splitHead]. now rewrite digitChar_not_T.
Qed.

Lemma isoYear_no_T y : splitHead "T" (isoYear y) = isoYear y.
Proof.
  unfold isoYear.
  destruct (andb (0 <=? y) (y <=? 9999)); [apply digits_no_T |].
  destruct (y <? 0); cbn [splitHead]; simpl Ascii.eqb; now rewrite digits_no_T.
Qed.

Lemma isoDate_no_T c : splitHead "T" (isoDate c) = isoDate c.
Proof.
  unfold isoDate.
  apply splitHead_free_app; [apply isoYear_no_T |].
  apply (splitHead_free_app _ "-"); [reflexivity |].
  apply splitHead_free_app; [apply digits_no_T |].
  apply (splitHead_free_app _ "-"); [reflexivity | apply digits_no_T].
Qed.

(** The text before the [T] of [toISOString] is the calendar date. *)
Lemma toISOString_date d :
  splitHead "T" (toISOString d) = isoDate (calendarOfDay (Day d)).
Proof. unfold toISOString. apply splitHead_app, isoDate_no_T. Qed.

(** Two instants of one day have the same date text: the time of day does
    not count. *)
Lemma toISOString_date_of_day d1 d2 :
  Day d1 = Day d2 ->
  splitHead "T" (toISOString d1) = splitHead "T" (toISOString d2).
Proof. intros H. now rewrite !toISOString_date, H. Qed.

End DateFacts.

(* ================================================================== *)
(** * Facts about filteredCustomers *)

Section FilterFacts.

Lemma idMatch_iff box i :
  (if truthy box then includes (idText i) box else true) = true <-> idFilterHolds box i.
Proof.
  unfold idFilterHolds. destruct (truthy box) eqn:Hbox.
  - rewrite includes_iff. split.
    + intros H. right. destruct i as [n|]; [eauto |].
      destruct H as [before [after H]]. simpl in H.
      destruct before; simpl in H; [|discriminate].
      destruct box; [discriminate Hbox | discriminate H].
    + intros [-> | [n [-> H]]]; [discriminate Hbox | exact H].
  - apply truthy_false in Hbox. tauto.
Qed.

Lemma textMatch_iff box field :
  includes (toLowerCase field) (toLowerCase box) = true <-> textFilterHolds box field.
Proof.
  rewrite includes_toLowerCase_iff. unfold textFilterHolds. split; [tauto |].
  intros [-> | H]; [apply containsIgnoringCase_nil | exact H].
Qed.

Lemma CustomerType_eqb_eq a b : CustomerType_eqb a b = true <-> a = b.
Proof. destruct a, b; simpl; split; congruence. Qed.

Lemma typeMatch_iff box t :
  match box with Some x => CustomerType_eqb t x | None => true end = true
  <-> typeFilterHolds box t.
Proof.
  unfold typeFilterHolds. destruct box as [x|].
  - rewrite CustomerType_eqb_eq. split; [intros ->; auto | intros [H | H]; congruence].
  - tauto.
Qed.

Lemma callMatch_iff box call : callMatch box call = true <-> dateFilterHolds box call.
Proof.
  unfold callMatch, dateFilterHolds. destruct (truthy box) eqn:Hbox; simpl.
  - destruct call as [d|].
    + rewrite String.eqb_eq, toISOString_date. split.
      * intros H. right. eauto.
      * intros [-> | [d' [[= <-] H]]]; [discriminate Hbox | exact H].
    + split; [discriminate |].
      intros [-> | [d [H _]]]; [discriminate Hbox | discriminate H].
  - apply truthy_false in Hbox. tauto.
Qed.

(** The callback of the filter decides the criteria of the spec. *)
Lemma customerMatches_iff s c : customerMatches s c = true <-> satisfies s c.
Proof.
  unfold customerMatches, satisfies.
  rewrite !andb_true_iff, idMatch_iff, !textMatch_iff, typeMatch_iff, !callMatch_iff.
  tauto.
Qed.


(** [Selects] leaves one answer only. *)
Lemma Selects_unique {A : Type} (P : A -> Prop) (l r1 r2 : list A) :
  Selects P l r1 -> Selects P l r2 -> r1 = r2.
Proof.
  intros H1. revert r2. induction H1; intros r2 H2; inversion H2; subst;
    try reflexivity; try contradiction; auto.
  f_equal. auto.
Qed.

End FilterFacts.

(* ================================================================== *)
(** * Facts about Array.prototype.sort *)

Section PairFacts.
Context {A : Type}.
Variable R : A -> A -> Prop.

Lemma ForallOrdPairs_app_inv (l1 l2 : list A) :
  ForallOrdPairs R (l1 ++ l2) ->
  ForallOrdPairs R l1 /\ ForallOrdPairs R l2
  /\ Forall (fun x => Forall (R x) l2) l1.
Proof.
  induction l1 as [|x l1 IH]; simpl; intros H.
  - repeat split; [constructor | exact H | constructor].
  - inversion H as [|? ? Hx Hl]; subst.
    destruct (IH Hl) as [H1 [H2 H12]].
    apply List.Forall_app in Hx. destruct Hx as [Hx1 Hx2].
    repeat split; try assumption; constructor; assumption.
Qed.

Lemma ForallOrdPairs_snoc (l : list A) (x : A) :
  ForallOrdPairs R l -> Forall (fun y => R y x) l -> ForallOrdPairs R (l ++ [x]).
Proof.
  induction 1 as [|y l Hy Hl IH]; simpl; intros Hx.
  - repeat constructor.
  - inversion Hx; subst. constructor; [| auto].
    apply List.Forall_app. split; [exact Hy | repeat constructor; assumption].
Qed.

(** Two elements of such a list, the first before the second, are
    related. *)
Lemma ForallOrdPairs_lookup (l : list A) :
  ForallOrdPairs R l ->
  forall i j x y, (i < j)%nat -> nth_error l i = Some x -> nth_error l j = Some y -> R x y.
Proof.
  induction 1 as [|a l Ha Hl IH]; intros i j x y Hij Hi Hj.
  - destruct i; discriminate.
  - destruct j as [|j]; [lia |]. simpl in Hj. destruct i as [|i]; simpl in Hi.
    + injection Hi as <-. rewrite List.Forall_forall in Ha.
      apply Ha. eapply nth_error_In; eassumption.
    + eapply IH; [| eassumption | eassumption]. lia.
Qed.
End PairFacts.

Section PairFacts2.
Context {A : Type}.

Lemma ForallOrdPairs_rev (R : A -> A -> Prop) (l : list A) :
  ForallOrdPairs R l -> ForallOrdPairs (fun x y => R y x) (rev l).
Proof.
  induction 1 as [|x l Hx Hl IH]; simpl; [constructor |].
  apply ForallOrdPairs_snoc; [exact IH | apply List.Forall_rev; exact Hx].
Qed.

Lemma ForallOrdPairs_both (R1 R2 R3 : A -> A -> Prop) (l : list A) :
  (forall x y, R1 x y -> R2 x y -> R3 x y) ->
  ForallOrdPairs R1 l -> ForallOrdPairs R2 l -> ForallOrdPairs R3 l.
Proof.
  intros H H1. induction H1 as [|x l Hx Hl IH]; intros H2; [constructor |].
  inversion H2 as [|? ? Hx2 Hl2]; subst. constructor; [| auto].
  rewrite List.Forall_forall in *. auto.
Qed.

Lemma ForallOrdPairs_perm (R : A -> A -> Prop) (l l' : list A) :
  (forall x y, R x y -> R y x) ->
  Permutation l l' -> ForallOrdPairs R l -> ForallOrdPairs R l'.
Proof.
  intros Hsym. induction 1 as [| x l l' Hp IH | x y l | l l' l'' _ IH1 _ IH2]; intros H.
  - exact H.
  - inversion H; subst. constructor; [| auto].
    eapply Permutation_Forall; eassumption.
  - inversion H as [|? ? Hy Hl]; subst. inversion Hl as [|? ? Hx Hl']; subst.
    inversion Hy; subst. repeat constructor; auto.
  - auto.
Qed.

Lemma filter_none (f : A -> bool) (l : list A) :
  Forall (fun x => f x = false) l -> List.filter f l = [].
Proof. induction 1 as [|x l Hx _ IH]; simpl; [reflexivity | now rewrite Hx]. Qed.
End PairFacts2.

Section SortFacts.
Context {A : Type}.
Variable comparefn : A -> A -> Z.

Local Abbreviation place := (JSArray.place comparefn).
Local Abbreviation sort := (JSArray.sort comparefn).

Lemma sort_sortFrom l : sort l = sortFrom comparefn [] l.
Proof. reflexivity. Qed.

Lemma sortFrom_cons run p l :
  sortFrom comparefn run (p :: l) = sortFrom comparefn (place p run) l.
Proof. reflexivity. Qed.

Lemma place_perm p run : Permutation (place p run) (p :: run).
Proof.
  induction run as [|e rest IH]; simpl; [reflexivity |].
  destruct (comparefn p e <? 0); [reflexivity |].
  rewrite IH. apply perm_swap.
Qed.

Lemma sortFrom_perm l : forall run, Permutation (sortFrom comparefn run l) (run ++ l).
Proof.
  induction l as [|p l IH]; intros run.
  - simpl. now rewrite app_nil_r.
  - rewrite sortFrom_cons, IH, place_perm. apply Permutation_middle.
Qed.

Lemma sort_perm l : Permutation (sort l) l.
Proof. rewrite sort_sortFrom. apply sortFrom_perm. Qed.

(** A pivot that is below nothing of the run goes to its end. *)
Lemma place_last p run :
  Forall (fun e => below comparefn p e = false) run -> place p run = run ++ [p].
Proof.
  induction 1 as [|e rest He _ IH]; simpl; [reflexivity |].
  unfold below in He. rewrite He. now rewrite IH.
Qed.

(** A pivot that is below all of the run goes to its front. *)
Lemma place_first p run :
  Forall (fun e => below comparefn p e = true) run -> place p run = p :: run.
Proof.
  intros H. destruct H as [|e rest He _]; simpl; [reflexivity |].
  unfold below in He. now rewrite He.
Qed.

Lemma Ordered_snoc_last run p :
  Ordered comparefn (run ++ [p]) -> Forall (fun e => below comparefn p e = false) run.
Proof.
  intros H. apply ForallOrdPairs_app_inv in H. destruct H as [_ [_ H]].
  induction H as [|x l Hx _ IH]; constructor; [| exact IH].
  now inversion Hx.
Qed.

(** Sorting what is in order already changes nothing. *)
Lemma sortFrom_Ordered l :
  forall run, Ordered comparefn (run ++ l) -> sortFrom comparefn run l = run ++ l.
Proof.
  induction l as [|p l IH]; intros run H.
  - simpl. now rewrite app_nil_r.
  - rewrite sortFrom_cons.
    replace (run ++ p :: l) with ((run ++ [p]) ++ l) in * by now rewrite <- app_assoc.
    rewrite place_last.
    + now apply IH.
    + apply Ordered_snoc_last. now apply ForallOrdPairs_app_inv in H.
Qed.

Lemma sort_Ordered_fixed l : Ordered comparefn l -> sort l = l.
Proof. intros H. rewrite sort_sortFrom. now apply sortFrom_Ordered. Qed.

(** Sorting a falling array turns it over. *)
Lemma sortFrom_Falling l :
  forall run,
    Falling comparefn l ->
    Forall (fun x => Forall (fun e => below comparefn x e = true) run) l ->
    sortFrom comparefn run l = rev l ++ run.
Proof.
  induction l as [|p l IH]; intros run Hl Hrun; [reflexivity |].
  inversion Hl as [|? ? Hp Hl']; subst.
  inversion Hrun as [|? ? Hprun Hrun']; subst.
  rewrite sortFrom_cons, place_first by assumption.
  rewrite IH; [simpl; now rewrite <- app_assoc | assumption |].
  clear IH Hl Hrun Hl'. induction Hp as [|y l Hy _ IH']; constructor.
  - constructor; [exact Hy | now inversion Hrun'].
  - apply IH'. now inversion Hrun'.
Qed.

Lemma sort_Falling l : Falling comparefn l -> sort l = rev l.
Proof.
  intros H. rewrite sort_sortFrom, sortFrom_Falling, app_nil_r; auto.
  clear H. induction l; constructor; auto.
Qed.

(** ** Under a strict weak order *)

Hypothesis below_irrefl : forall x, below comparefn x x = false.
Hypothesis below_trans :
  forall x y z,
    below comparefn x y = true -> below comparefn y z = true -> below comparefn x z = true.
Hypothesis below_neg_trans :
  forall x y z,
    below comparefn x y = false -> below comparefn y z = false ->
    below comparefn x z = false.

Lemma below_asym x y : below comparefn x y = true -> below comparefn y x = false.
Proof.
  intros H. destruct (below comparefn y x) eqn:E; [| reflexivity].
  rewrite <- (below_irrefl x). symmetry. eauto.
Qed.

Lemma place_Ordered p run : Ordered comparefn run -> Ordered comparefn (place p run).
Proof.
  induction 1 as [|e rest He Hrest IH]; simpl.
  - repeat constructor.
  - fold (below comparefn p e). destruct (below comparefn p e) eqn:Hpe.
    + constructor; [| now constructor].
      constructor; [now apply below_asym |].
      eapply Forall_impl; [exact He |]. simpl. intros y Hy.
      apply below_neg_trans with e; [exact Hy | now apply below_asym].
    + constructor; [| exact IH].
      eapply Permutation_Forall; [symmetry; apply place_perm |].
      constructor; assumption.
Qed.

Lemma sortFrom_Ordered_run l :
  forall run, Ordered comparefn run -> Ordered comparefn (sortFrom comparefn run l).
Proof.
  induction l as [|p l IH]; intros run H; [exact H |].
  rewrite sortFrom_cons. apply IH, place_Ordered, H.
Qed.

Lemma sort_Ordered l : Ordered comparefn (sort l).
Proof. rewrite sort_sortFrom. apply sortFrom_Ordered_run. constructor. Qed.

Lemma sort_idempotent l : sort (sort l) = sort l.
Proof. apply sort_Ordered_fixed, sort_Ordered. Qed.

Lemma tied_sym x y : tied comparefn x y = tied comparefn y x.
Proof. unfold tied. apply andb_comm. Qed.

(** What is strictly above a pivot does not tie with what ties with the
    pivot. *)
Lemma tied_not_above x p f :
  tied comparefn x p = true -> below comparefn p f = true -> tied comparefn x f = false.
Proof.
  unfold tied. rewrite andb_true_iff, !negb_true_iff. intros [Hxp Hpx] Hpf.
  destruct (below comparefn x f) eqn:Hxf; [reflexivity |].
  rewrite (below_neg_trans p x f) in Hpf; [discriminate | assumption | assumption].
Qed.

(** Placing a pivot leaves each class of ties in order, the pivot after
    the members already there. *)
Lemma place_tied x p run :
  Ordered comparefn run ->
  List.filter (tied comparefn x) (place p run)
  = List.filter (tied comparefn x) run ++ (if tied comparefn x p then [p] else []).
Proof.
  induction 1 as [|e rest He Hrest IH].
  - simpl. destruct (tied comparefn x p); reflexivity.
  - cbn [JSArray.place]. fold (below comparefn p e). destruct (below comparefn p e) eqn:Hpe.
    + destruct (tied comparefn x p) eqn:Hxp.
      * assert (Hall : Forall (fun f => tied comparefn x f = false) (e :: rest)).
        { constructor; [now apply tied_not_above with p |].
          eapply Forall_impl; [exact He |]. simpl. intros f Hf.
          apply tied_not_above with p; [assumption |].
          destruct (below comparefn p f) eqn:Hpf; [reflexivity |].
          rewrite (below_neg_trans p f e) in Hpe; [discriminate | assumption | assumption]. }
        cbn [List.filter]. rewrite Hxp.
        change (if tied comparefn x e
                then e :: List.filter (tied comparefn x) rest
                else List.filter (tied comparefn x) rest)
          with (List.filter (tied comparefn x) (e :: rest)).
        now rewrite (filter_none _ _ Hall).
      * cbn [List.filter]. rewrite Hxp. now rewrite app_nil_r.
    + cbn [List.filter]. rewrite IH. destruct (tied comparefn x e); reflexivity.
Qed.

Lemma sortFrom_tied x l :
  forall run,
    Ordered comparefn run ->
    List.filter (tied comparefn x) (sortFrom comparefn run l)
    = List.filter (tied comparefn x) run ++ List.filter (tied comparefn x) l.
Proof.
  induction l as [|p l IH]; intros run H.
  - simpl. now rewrite app_nil_r.
  - rewrite sortFrom_cons, IH, place_tied by auto using place_Ordered.
    rewrite <- app_assoc. cbn [List.filter]. destruct (tied comparefn x p); reflexivity.
Qed.

(** The sort is stable: each class of ties comes out as it went in. *)
Lemma sort_stable x l :
  List.filter (tied comparefn x) (sort l) = List.filter (tied comparefn x) l.
Proof. rewrite sort_sortFrom, sortFrom_tied; [reflexivity | constructor]. Qed.

Lemma untied_pairs l :
  untied comparefn l = true <-> ForallOrdPairs (fun x y => tied comparefn x y = false) l.
Proof.
  induction l as [|x l IH]; simpl.
  - split; [constructor | reflexivity].
  - rewrite andb_true_iff, IH, forallb_forall. split.
    + intros [Hx Hl]. constructor; [| exact Hl].
      apply List.Forall_forall. intros y Hy. apply negb_true_iff. auto.
    + intros H. inversion H as [|? ? Hx Hl]; subst. split; [| exact Hl].
      rewrite List.Forall_forall in Hx. intros y Hy. apply negb_true_iff. auto.
Qed.

(** Without ties the sorted array turned over sorts back to itself. *)
Lemma sort_rev_sort l : untied comparefn l = true -> sort (rev (sort l)) = sort l.
Proof.
  intros H. rewrite sort_Falling; [apply rev_involutive |].
  unfold Falling.
  apply (ForallOrdPairs_rev (fun x y => below comparefn x y = true)).
  apply ForallOrdPairs_both
    with (R1 := fun x y => below comparefn y x = false)
         (R2 := fun x y => tied comparefn x y = false).
  - intros x y Hyx Ht. unfold tied in Ht. rewrite Hyx in Ht.
    destruct (below comparefn x y); [reflexivity | discriminate].
  - apply sort_Ordered.
  - apply ForallOrdPairs_perm with l.
    + intros x y. now rewrite tied_sym.
    + symmetry. apply sort_perm.
    + now apply untied_pairs.
Qed.

Lemma tied_refl x : tied comparefn x x = true.
Proof. unfold tied. now rewrite below_irrefl. Qed.

Lemma Ordered_head_tied a l1 b l2 :
  Ordered comparefn (a :: l1) -> Ordered comparefn (b :: l2) ->
  Permutation (a :: l1) (b :: l2) -> tied comparefn a b = true.
Proof.
  intros O1 O2 P. unfold tied.
  assert (Ha : In a (b :: l2)) by (eapply Permutation_in; [exact P | now left]).
  assert (Hb : In b (a :: l1))
    by (eapply Permutation_in; [symmetry; exact P | now left]).
  inversion O1 as [|? ? H1 _]; inversion O2 as [|? ? H2 _]; subst.
  rewrite List.Forall_forall in H1, H2.
  replace (below comparefn a b) with false
    by (destruct Ha as [<- | Ha]; [now rewrite below_irrefl | now rewrite H2]).
  replace (below comparefn b a) with false
    by (destruct Hb as [<- | Hb]; [now rewrite below_irrefl | now rewrite H1]).
  reflexivity.
Qed.

(** In order, a permutation, every class of ties in its order: that is
    one array only. *)
Lemma stable_sort_unique l1 :
  forall l2,
    Ordered comparefn l1 -> Ordered comparefn l2 -> Permutation l1 l2 ->
    (forall x, List.filter (tied comparefn x) l1 = List.filter (tied comparefn x) l2) ->
    l1 = l2.
Proof.
  induction l1 as [|a l1 IH]; intros l2 O1 O2 P Hf.
  - apply Permutation_nil in P. now subst.
  - destruct l2 as [|b l2]; [symmetry in P; now apply Permutation_nil in P |].
    pose proof (Ordered_head_tied a l1 b l2 O1 O2 P) as Hab.
    assert (a = b) as <-.
    { pose proof (Hf a) as H. cbn [List.filter] in H.
      rewrite tied_refl, Hab in H. now injection H. }
    f_equal. apply IH.
    + now inversion O1.
    + now inversion O2.
    + now apply Permutation_cons_inv in P.
    + intros x. pose proof (Hf x) as H. cbn [List.filter] in H.
      destruct (tied comparefn x a); [now injection H | exact H].
Qed.

(** Whatever the engine does, if it returns the stable sort for this
    order, it returns the array of the model. *)
Lemma sort_unique l out :
  Ordered comparefn out -> Permutation out l ->
  (forall x, List.filter (tied comparefn x) out = List.filter (tied comparefn x) l) ->
  out = sort l.
Proof.
  intros O P Hf. apply stable_sort_unique.
  - exact O.
  - apply sort_Ordered.
  - rewrite P. symmetry. apply sort_perm.
  - intros x. now rewrite Hf, sort_stable.
Qed.

End SortFacts.

(* ================================================================== *)
(** * Facts about the comparator *)

Section CodeUnitFacts.

Lemma codeUnitCompare_refl a : codeUnitCompare a a = 0.
Proof. induction a as [|x a IH]; simpl; [reflexivity |]. now rewrite N.ltb_irrefl. Qed.

Lemma codeUnitCompare_antisym a :
  forall b, codeUnitCompare a b < 0 <-> 0 < codeUnitCompare b a.
Proof.
  induction a as [|x a IH]; intros [|y b]; simpl; try lia.
  destruct (N.ltb_spec (N_of_ascii x) (N_of_ascii y)),
           (N.ltb_spec (N_of_ascii y) (N_of_ascii x)); try lia.
  apply IH.
Qed.

Lemma codeUnitCompare_trans a :
  forall b c,
    codeUnitCompare a b <= 0 -> codeUnitCompare b c <= 0 -> codeUnitCompare a c <= 0.
Proof.
  induction a as [|x a IH]; intros [|y b] [|z c]; simpl; try lia.
  destruct (N.ltb_spec (N_of_ascii x) (N_of_ascii y)),
           (N.ltb_spec (N_of_ascii y) (N_of_ascii x)),
           (N.ltb_spec (N_of_ascii y) (N_of_ascii z)),
           (N.ltb_spec (N_of_ascii z) (N_of_ascii y)),
           (N.ltb_spec (N_of_ascii x) (N_of_ascii z)),
           (N.ltb_spec (N_of_ascii z) (N_of_ascii x)); try lia.
  apply IH.
Qed.

End CodeUnitFacts.

(** The collation of the examples. *)
Definition codeUnitCollation : Collation :=
  Build_Collation codeUnitCompare
    codeUnitCompare_refl
    (fun a b => codeUnitCompare_antisym a b)
    (fun a b c => codeUnitCompare_trans a b c).

Section NullsAtEndFacts.
Context {V : Type}.
Variable present : V -> V -> Z.
Hypothesis present_refl : forall x, present x x = 0.
Hypothesis present_antisym : forall x y, present x y < 0 <-> 0 < present y x.
Hypothesis present_trans :
  forall x y z, present x y <= 0 -> present y z <= 0 -> present x z <= 0.

Lemma nullsAtEnd_irrefl a : (nullsAtEnd present a a <? 0) = false.
Proof.
  apply Z.ltb_ge. destruct a as [x|]; simpl; [rewrite present_refl |]; lia.
Qed.

Lemma nullsAtEnd_trans a b c :
  (nullsAtEnd present a b <? 0) = true ->
  (nullsAtEnd present b c <? 0) = true ->
  (nullsAtEnd present a c <? 0) = true.
Proof.
  rewrite !Z.ltb_lt.
  destruct a as [x|], b as [y|], c as [z|]; simpl; try lia.
  intros Hxy Hyz.
  pose proof (present_antisym x y). pose proof (present_antisym y z).
  pose proof (present_antisym x z). pose proof (present_antisym z x).
  pose proof (present_antisym z y).
  pose proof (present_trans x y z). pose proof (present_trans z x y).
  lia.
Qed.

Lemma nullsAtEnd_neg_trans a b c :
  (nullsAtEnd present a b <? 0) = false ->
  (nullsAtEnd present b c <? 0) = false ->
  (nullsAtEnd present a c <? 0) = false.
Proof.
  rewrite !Z.ltb_ge.
  destruct a as [x|], b as [y|], c as [z|]; simpl; try lia.
  intros Hxy Hyz.
  pose proof (present_antisym x y). pose proof (present_antisym y x).
  pose proof (present_antisym y z). pose proof (present_antisym z y).
  pose proof (present_antisym x z). pose proof (present_antisym z x).
  pose proof (present_trans z y x).
  lia.
Qed.

Lemma nullsAtEnd_tied a b :
  negb (nullsAtEnd present a b <? 0) && negb (nullsAtEnd present b a <? 0)
  = match a, b with
    | None, None => true
    | Some x, Some y => present x y =? 0
    | _, _ => false
    end.
Proof.
  destruct a as [x|], b as [y|]; simpl; try reflexivity.
  pose proof (present_antisym x y). pose proof (present_antisym y x).
  destruct (Z.ltb_spec (present x y) 0), (Z.ltb_spec (present y x) 0),
           (Z.eqb_spec (present x y) 0); simpl; try reflexivity; lia.
Qed.
End NullsAtEndFacts.

Section ComparatorFacts.
Context {L : Collation}.

Local Ltac law :=
  first [ apply localeCompare_refl | apply localeCompare_antisym
        | apply localeCompare_trans | unfold getTime; intros; lia ].

Local Ltac by_key lemma := apply lemma; law.

Lemma comparefn_irrefl key x : below (comparefn key) x x = false.
Proof. unfold below. destruct key; cbn [comparefn]; by_key @nullsAtEnd_irrefl. Qed.

Lemma comparefn_trans key x y z :
  below (comparefn key) x y = true -> below (comparefn key) y z = true ->
  below (comparefn key) x z = true.
Proof. unfold below. destruct key; cbn [comparefn]; by_key @nullsAtEnd_trans. Qed.

Lemma comparefn_neg_trans key x y z :
  below (comparefn key) x y = false -> below (comparefn key) y z = false ->
  below (comparefn key) x z = false.
Proof. unfold below. destruct key; cbn [comparefn]; by_key @nullsAtEnd_neg_trans. Qed.

(** The ties of the sort are the ties of the records. *)
Lemma tied_ties key a b : tied (comparefn key) a b = ties key a b.
Proof.
  unfold tied, below, ties.
  destruct key; cbn [comparefn missing];
    (rewrite nullsAtEnd_tied; [| law ..]); try reflexivity.
  - destruct (id a), (id b); reflexivity.
  - destruct (lastCall a), (lastCall b); reflexivity.
  - destruct (nextCall a), (nextCall b); reflexivity.
Qed.

(** [noTies] in the terms of [ties]. *)
Lemma noTies_ties key rows :
  noTies key rows = true <-> ForallOrdPairs (fun x y => ties key x y = false) rows.
Proof.
  unfold noTies. rewrite untied_pairs.
  split; intros H; induction H as [|x l Hx _ IH]; constructor; auto;
    (eapply Forall_impl; [exact Hx |]); simpl; intros y Hy;
    [rewrite <- tied_ties | rewrite tied_ties]; exact Hy.
Qed.

(** A record that has the key is strictly below one that lacks it. *)
Lemma present_below_missing key x y :
  missing key x = true -> missing key y = false -> below (comparefn key) y x = true.
Proof.
  unfold below. destruct key; cbn [comparefn missing]; try discriminate.
  - destruct (id x), (id y); try discriminate; reflexivity.
  - destruct (lastCall x), (lastCall y); try discriminate; reflexivity.
  - destruct (nextCall x), (nextCall y); try discriminate; reflexivity.
Qed.

Lemma sorted_Ordered key l : Ordered (comparefn key) (JSArray.sort (comparefn key) l).
Proof.
  apply sort_Ordered;
    [apply comparefn_irrefl | apply comparefn_trans | apply comparefn_neg_trans].
Qed.

End ComparatorFacts.

(* ================================================================== *)
(** * The filter *)

Section FilterTheorems.

Example filter_by_name :
  filteredCustomers [ann; bob] (mkSearch "" "an" "" "" "" None "" "") = [ann].
Proof. reflexivity. Qed.

Example filter_by_day :
  filteredCustomers [ann; bob; cyd; amy] (mkSearch "" "" "" "" "" None "2024-01-05" "")
  = [ann; amy].
Proof. vm_compute. reflexivity. Qed.


(** C9.  With every search box empty, [filteredCustomers] returns the
    snapshot itself: the empty text occurs in every field, the empty
    field included. *)
Theorem filteredCustomers_noSearch (customers : list Customer) :
  filteredCustomers customers noSearch = customers
  /\ includes EmptyString EmptyString = true.
Proof.
  split; [| reflexivity].
  unfold filteredCustomers.
  induction customers as [|c rest IH]; [reflexivity |].
  cbn [List.filter]. rewrite IH.
  replace (customerMatches noSearch c) with true; [reflexivity |].
  unfold customerMatches, noSearch, callMatch. cbn.
  now rewrite !includes_nil.
Qed.

End FilterTheorems.

(* ================================================================== *)
(** * The sort *)

Section SortLemmas.
Context {L : Collation}.

Lemma ascending_MissingLast key filtered :
  MissingLast key (sortedAndFilteredCustomers filtered (Some key) asc).
Proof.
  intros i j x y Hi Hj Hx Hy. cbn [sortedAndFilteredCustomers] in Hi, Hj.
  destruct (Nat.lt_total i j) as [Hlt | [-> | Hgt]]; [| congruence | exact Hgt].
  pose proof (ForallOrdPairs_lookup _ _ (sorted_Ordered key filtered) i j x y Hlt Hi Hj) as H.
  simpl in H. rewrite (present_below_missing key x y Hx Hy) in H. discriminate.
Qed.

Lemma descending_MissingFirst key filtered :
  MissingFirst key (sortedAndFilteredCustomers filtered (Some key) desc).
Proof.
  intros i j x y Hi Hj Hx Hy. cbn [sortedAndFilteredCustomers] in Hi, Hj.
  unfold JSArray.reverse in Hi, Hj.
  destruct (Nat.lt_total i j) as [Hlt | [-> | Hgt]]; [exact Hlt | congruence |].
  pose proof (ForallOrdPairs_rev _ _ (sorted_Ordered key filtered)) as Hrev.
  pose proof (ForallOrdPairs_lookup _ _ Hrev j i y x Hgt Hj Hi) as H.
  simpl in H. rewrite (present_below_missing key x y Hx Hy) in H. discriminate.
Qed.

Lemma ascending_stable key filtered x :
  List.filter (ties key x) (sortedAndFilteredCustomers filtered (Some key) asc)
  = List.filter (ties key x) filtered.
Proof.
  cbn [sortedAndFilteredCustomers].
  rewrite <- !(filter_ext _ _ (tied_ties key x)).
  apply sort_stable;
    [apply comparefn_irrefl | apply comparefn_trans | apply comparefn_neg_trans].
Qed.

Lemma sorted_perm filtered key order :
  Permutation (sortedAndFilteredCustomers filtered key order) filtered.
Proof.
  destruct key as [key|]; [| reflexivity]. cbn [sortedAndFilteredCustomers].
  destruct order; unfold JSArray.reverse;
    [| rewrite <- Permutation_rev]; apply sort_perm.
Qed.

End SortLemmas.

Section SortTheorems.
Context {L : Collation}.

(** C2.  Every record that lacks the sort field should stand after every
    record that has it, whatever the field and in both directions; the
    comparator is written to that end (its comment: place nulls and
    undefined at the end).  Ascending it holds for every input.
    Descending it does not: the reversal carries the missing records to
    the front.  Sorting [ann; bob; cyd] by [lastCall], descending, puts
    [bob], who has no last call, first. *)
Theorem descending_puts_missing_first :
  let rows := sortedAndFilteredCustomers [ann; bob; cyd] (Some key_lastCall) desc in
  rows = [bob; ann; cyd]
  /\ nth_error rows 0 = Some bob /\ missing key_lastCall bob = true
  /\ nth_error rows 1 = Some ann /\ missing key_lastCall ann = false
  /\ forall filtered key,
       MissingLast key (sortedAndFilteredCustomers filtered (Some key) asc).
Proof.
  repeat split; try reflexivity. intros filtered key. apply ascending_MissingLast.
Qed.

(** C3.  For every filtered sequence and every sort field the descending
    result is the ascending result reversed.  The records that lack the
    field, last when ascending, are therefore first when descending.  By
    [lastCall], the values 2024-01-05, missing, 2023-06-01 come out as
    2023-06-01, 2024-01-05, missing ascending and as missing, 2024-01-05,
    2023-06-01 descending. *)
Theorem descending_is_ascending_reversed (filtered : list Customer) (key : CustomerKey) :
  sortedAndFilteredCustomers filtered (Some key) desc
  = rev (sortedAndFilteredCustomers filtered (Some key) asc)
  /\ MissingLast key (sortedAndFilteredCustomers filtered (Some key) asc)
  /\ MissingFirst key (sortedAndFilteredCustomers filtered (Some key) desc)
  /\ sortedAndFilteredCustomers [ann; bob; cyd] (Some key_lastCall) asc = [cyd; ann; bob]
  /\ sortedAndFilteredCustomers [ann; bob; cyd] (Some key_lastCall) desc = [bob; ann; cyd].
Proof.
  split; [reflexivity |].
  split; [apply ascending_MissingLast |].
  split; [apply descending_MissingFirst |].
  split; reflexivity.
Qed.

(** C4, amended.  The sort is a function of the filtered sequence and the
    directive.  Ascending it is stable: the records that tie with a given
    record on the chosen field, two records that both lack the field
    included, come out in the order they had in the filtered input.
    Descending, the whole ascending result is reversed, so they come out
    in the reverse of that order.  With no field chosen the input is
    returned as it is. *)
Theorem sort_ties_in_order (filtered : list Customer) (key : CustomerKey) (x : Customer) :
  List.filter (ties key x) (sortedAndFilteredCustomers filtered (Some key) asc)
  = List.filter (ties key x) filtered
  /\ List.filter (ties key x) (sortedAndFilteredCustomers filtered (Some key) desc)
     = rev (List.filter (ties key x) filtered)
  /\ (forall order, sortedAndFilteredCustomers filtered None order = filtered).
Proof.
  split; [apply ascending_stable |]. split; [| reflexivity].
  change (sortedAndFilteredCustomers filtered (Some key) desc)
    with (rev (sortedAndFilteredCustomers filtered (Some key) asc)).
  now rewrite filter_rev, ascending_stable.
Qed.

(** C5, amended.  Sorting is idempotent for every ascending directive, and
    for a descending directive when no two records of the filtered
    sequence tie on the chosen field. *)
Theorem sort_idempotent_without_descending_ties
  (filtered : list Customer) (key : CustomerKey) (order : SortOrder) :
  (order = desc -> noTies key filtered = true) ->
  sortedAndFilteredCustomers
    (sortedAndFilteredCustomers filtered (Some key) order) (Some key) order
  = sortedAndFilteredCustomers filtered (Some key) order.
Proof.
  intros Hties. destruct order; cbn [sortedAndFilteredCustomers].
  - apply sort_idempotent;
      [apply comparefn_irrefl | apply comparefn_trans | apply comparefn_neg_trans].
  - unfold JSArray.reverse. f_equal.
    apply sort_rev_sort;
      [apply comparefn_irrefl | apply comparefn_trans | apply comparefn_neg_trans |].
    now apply Hties.
Qed.

End SortTheorems.

(** C4 as stated fails: [ann] and [amy] have the same [type]; sorted by
    [type], descending, they change places. *)
Lemma descending_swaps_ties :
  exists (L : Collation) (filtered : list Customer) (key : CustomerKey) (order : SortOrder)
         (x : Customer),
    List.filter (ties key x) (sortedAndFilteredCustomers filtered (Some key) order)
    <> List.filter (ties key x) filtered.
Proof.
  exists codeUnitCollation, [ann; amy], key_type, desc, ann.
  vm_compute. discriminate.
Qed.

(** C5 as stated fails: sorting [ann; amy] by [type], descending, gives
    [amy; ann]; sorting that again gives [ann; amy]. *)
Lemma descending_twice_differs :
  exists (L : Collation) (filtered : list Customer) (key : CustomerKey) (order : SortOrder),
    sortedAndFilteredCustomers
      (sortedAndFilteredCustomers filtered (Some key) order) (Some key) order
    <> sortedAndFilteredCustomers filtered (Some key) order.
Proof.
  exists codeUnitCollation, [ann; amy], key_type, desc.
  vm_compute. discriminate.
Qed.

Lemma sort_idempotent_witness :
  let sorted := sortedAndFilteredCustomers (L := codeUnitCollation) in
  sorted (sorted [ann; bob; cyd] (Some key_fullName) desc) (Some key_fullName) desc
  = sorted [ann; bob; cyd] (Some key_fullName) desc.
Proof.
  apply (@sort_idempotent_without_descending_ties codeUnitCollation
           [ann; bob; cyd] key_fullName desc).
  intros _. reflexivity.
Defined.

(* ================================================================== *)
(** * The copy that is sorted *)

Section HeapFacts.

Lemma inPlace_last f (h : Heap) (rows : list Customer) :
  inPlace f (length h) (h ++ [rows]) = h ++ [f rows].
Proof.
  unfold inPlace. rewrite list_lookup_middle by reflexivity.
  rewrite insert_app_r_alt by lia. now rewrite Nat.sub_diag.
Qed.

Lemma lookup_last (h : Heap) (rows : list Customer) :
  (h ++ [rows]) !! length h = Some rows.
Proof. now apply list_lookup_middle. Qed.

End HeapFacts.

(** C10.  For every filtered sequence and every directive the output of
    [sortedAndFilteredCustomers] is a permutation of the filtered
    sequence.  The getter sorts and reverses a new array: the filtered
    array, the snapshot and every other array that was there are as they
    were. *)
Theorem sorted_copy_is_permutation {L : Collation}
  (h : Heap) (filtered : nat) (rows : list Customer)
  (key : option CustomerKey) (order : SortOrder) :
  h !! filtered = Some rows ->
  exists h',
    sortedAndFilteredCustomers_getter h filtered key order = Some (h', length h)
    /\ h' !! length h = Some (sortedAndFilteredCustomers rows key order)
    /\ Permutation (sortedAndFilteredCustomers rows key order) rows
    /\ (forall address : nat, (address < length h)%nat -> h' !! address = h !! address).
Proof.
  intros Hrows. unfold sortedAndFilteredCustomers_getter, copyArray. rewrite Hrows.
  destruct key as [k|]; [destruct order |];
    rewrite ?inPlace_last; eexists; (split; [reflexivity |]);
    (split; [exact (lookup_last _ _) |]);
    (split; [apply sorted_perm |]);
    intros address Haddress; now apply lookup_app_l.
Qed.

Lemma sorted_copy_witness :
  exists h',
    sortedAndFilteredCustomers_getter (L := codeUnitCollation)
      [[ann; bob; cyd]; [ann; bob; cyd]] 1%nat (Some key_fullName) desc = Some (h', 2%nat)
    /\ h' !! 2%nat
       = Some (sortedAndFilteredCustomers (L := codeUnitCollation)
                 [ann; bob; cyd] (Some key_fullName) desc)
    /\ Permutation
         (sortedAndFilteredCustomers (L := codeUnitCollation)
            [ann; bob; cyd] (Some key_fullName) desc)
         [ann; bob; cyd]
    /\ (forall address : nat, (address < 2)%nat ->
          h' !! address = [[ann; bob; cyd]; [ann; bob; cyd]] !! address).
Proof.
  apply (@sorted_copy_is_permutation codeUnitCollation
           [[ann; bob; cyd]; [ann; bob; cyd]] 1%nat [ann; bob; cyd] (Some key_fullName) desc).
  reflexivity.
Defined.

(* ================================================================== *)
(** * The header clicks *)

Lemma CustomerKey_eqb_eq a b : CustomerKey_eqb a b = true <-> a = b.
Proof. destruct a, b; simpl; split; congruence. Qed.

Lemma isSortKey_iff d key : isSortKey d key = true <-> sortKey d = Some key.
Proof.
  unfold isSortKey. destruct (sortKey d) as [k|].
  - rewrite CustomerKey_eqb_eq. split; congruence.
  - split; discriminate.
Qed.

Lemma isSortKey_false d key : sortKey d <> Some key -> isSortKey d key = false.
Proof.
  intros H. destruct (isSortKey d key) eqn:E; [| reflexivity].
  now apply isSortKey_iff in E.
Qed.

(** C6, amended.  [sortBy] on the field that is the sort key flips the
    direction; on any other field it makes that field the key, ascending.
    Hence two calls on the field that is the sort key restore the
    directive, direction included, and after two such calls from
    ascending the rows shown are those of the first ascending sort.  Two
    calls on a field that is not the key (another one is, or none yet)
    leave that field as the key, descending. *)
Theorem sortBy_toggles {L : Collation}
  (d : SortDirective) (key : CustomerKey) (customers : list Customer) (s : SearchCriteria) :
  (sortKey d = Some key -> sortBy key d = mkDirective (Some key) (opposite (sortOrder d)))
  /\ (sortKey d <> Some key -> sortBy key d = mkDirective (Some key) asc)
  /\ (sortKey d = Some key -> sortBy key (sortBy key d) = d)
  /\ (sortKey d <> Some key -> sortBy key (sortBy key d) = mkDirective (Some key) desc)
  /\ displayed customers s (sortBy key (sortBy key (mkDirective (Some key) asc)))
     = displayed customers s (mkDirective (Some key) asc).
Proof.
  assert (Hsame : forall o,
            sortBy key (mkDirective (Some key) o) = mkDirective (Some key) (opposite o)).
  { intros o. unfold sortBy.
    now rewrite (proj2 (isSortKey_iff (mkDirective (Some key) o) key) eq_refl). }
  repeat split.
  - intros H. destruct d as [k o]. simpl in H. subst k. apply Hsame.
  - intros H. unfold sortBy. now rewrite (isSortKey_false d key H).
  - intros H. destruct d as [k o]. simpl in H. subst k.
    rewrite !Hsame. now destruct o.
  - intros H. unfold sortBy at 2. rewrite (isSortKey_false d key H). apply Hsame.
  - now rewrite !Hsame.
Qed.

(** C6 as stated fails in the state the component starts in: no key, the
    direction ascending; two clicks on [id] leave it descending. *)
Lemma sortBy_twice_from_start :
  exists (d : SortDirective) (key : CustomerKey),
    sortOrder d = asc /\ sortOrder (sortBy key (sortBy key d)) = desc
    /\ sortOrder (sortBy key (sortBy key d)) <> sortOrder d.
Proof. exists initialDirective, key_id. repeat split. discriminate. Qed.

Lemma sortBy_toggles_witness :
  sortBy key_phone (sortBy key_phone (mkDirective (Some key_phone) desc))
  = mkDirective (Some key_phone) desc.
Proof.
  apply (proj1 (proj2 (proj2
           (@sortBy_toggles codeUnitCollation
              (mkDirective (Some key_phone) desc) key_phone [ann; bob] noSearch)))).
  reflexivity.
Defined.

(* ================================================================== *)
(** * The add and edit forms *)

(** C7.  [addCustomer] with an empty [fullName] or an empty [phone] stops
    before any call to the Record Store: the alert is shown and nothing
    else changes.  A record it does pass to [add] is the pending record,
    whole, and has both fields non-empty.  [updateCustomer] passes the
    record being edited to [update] whatever its fields hold. *)
Theorem addCustomer_requires_name_and_phone (c : Component) :
  (fullName (newCustomer c) = EmptyString \/ phone (newCustomer c) = EmptyString ->
     addCustomer c
     = mkComponent (newCustomer c) (editingCustomer c)
                   (alerts c ++ [requiredAlert]) (storeCalls c))
  /\ (forall record,
        storeCalls (addCustomer c) = storeCalls c ++ [store_add record] ->
        record = newCustomer c
        /\ fullName record <> EmptyString /\ phone record <> EmptyString)
  /\ (fullName (newCustomer c) <> EmptyString -> phone (newCustomer c) <> EmptyString ->
        addCustomer c
        = mkComponent blankCustomer (editingCustomer c) (alerts c)
                      (storeCalls c ++ [store_add (newCustomer c)]))
  /\ (forall edited,
        editingCustomer c = Some edited ->
        updateCustomer c
        = mkComponent (newCustomer c) None (alerts c)
                      (storeCalls c ++ [store_update (id edited) edited])).
Proof.
  split; [| split; [| split]].
  - intros H. unfold addCustomer.
    replace (negb (truthy (fullName (newCustomer c))) || negb (truthy (phone (newCustomer c))))
      with true; [reflexivity |].
    destruct H as [H | H]; rewrite H; simpl; [reflexivity | now rewrite orb_true_r].
  - intros record H. unfold addCustomer in H.
    destruct (truthy (fullName (newCustomer c))) eqn:Hname;
      destruct (truthy (phone (newCustomer c))) eqn:Hphone; simpl in H;
      try (exfalso; apply (f_equal (@length StoreCall)) in H;
           rewrite length_app in H; simpl in H; lia).
    apply app_inj_tail in H. destruct H as [_ H]. injection H as <-.
    repeat split; intros E; rewrite E in *; discriminate.
  - intros Hname Hphone. unfold addCustomer.
    destruct (fullName (newCustomer c)); [congruence |].
    destruct (phone (newCustomer c)); [congruence |]. reflexivity.
  - intros edited H. unfold updateCustomer. now rewrite H.
Qed.

Lemma addCustomer_witness :
  addCustomer
    (mkComponent (mkCustomer None "Ann" "" "" "" NEW None None) None [] [store_add bob])
  = mkComponent (mkCustomer None "Ann" "" "" "" NEW None None) None
                [requiredAlert] [store_add bob].
Proof.
  apply (proj1 (addCustomer_requires_name_and_phone
                  (mkComponent (mkCustomer None "Ann" "" "" "" NEW None None)
                               None [] [store_add bob]))).
  right. reflexivity.
Defined.

(* ================================================================== *)
(** * The import *)

Section ImportFacts.

Lemma importRow_null : importRow JNull = None.
Proof. reflexivity. Qed.

Lemma importRow_value c : c <> JNull -> exists row, importRow c = Some row.
Proof.
  intros H. unfold importRow, importedDate.
  destruct c as [| b | n | s | items | members]; try contradiction; simpl;
    try (eexists; reflexivity).
  destruct (member "lastCall" members), (member "nextCall" members); eexists; reflexivity.
Qed.

Lemma mapRows_null items : In JNull items -> mapRows items = None.
Proof.
  induction items as [|c rest IH]; intros H; [contradiction |].
  destruct H as [-> | H]; [reflexivity |].
  cbn [mapRows]. rewrite (IH H). now destruct (importRow c).
Qed.

Lemma mapRows_values items :
  ~ In JNull items -> exists rows, mapRows items = Some rows /\ length rows = length items.
Proof.
  induction items as [|c rest IH]; intros H.
  - exists []. split; reflexivity.
  - destruct IH as [rows [Hrows Hlen]]; [intros Hin; apply H; now right |].
    destruct (importRow_value c) as [row Hrow]; [intros ->; apply H; now left |].
    exists (row :: rows). cbn [mapRows]. rewrite Hrow, Hrows. simpl. now rewrite Hlen.
Qed.

Lemma Rejected_importedCustomers parsed : Rejected parsed -> importedCustomers parsed = None.
Proof.
  intros [-> | [[v [-> Hv]] | [items [-> Hnull]]]].
  - reflexivity.
  - destruct v; try reflexivity. exfalso. now apply (Hv items).
  - now apply mapRows_null.
Qed.

End ImportFacts.

(** C8, amended.  When the text of the file is malformed JSON, or parses to
    a value that is no array, or to an array with a null element,
    [importData] stops before any call to the Record Store: neither
    [clear] nor [bulkAdd] is called and the alert is shown.  The elements
    of an array are not held against the Customer record: every array
    without a null element goes on to the [confirm] dialog, and once that
    is answered yes [clear] and [bulkAdd] are called with one row for
    each element; answered no, nothing changes. *)
Theorem importData_stops_on_unreadable_file
  (c : Component) (confirmed : bool) (parsed : Parsed) :
  (Rejected parsed ->
     importData (Some parsed) confirmed c
     = mkComponent (newCustomer c) (editingCustomer c)
                   (alerts c ++ [invalidAlert]) (storeCalls c))
  /\ (forall items,
        parsed = Value (JArray items) -> ~ In JNull items ->
        exists rows,
          length rows = length items
          /\ importData (Some parsed) true c
             = mkComponent (newCustomer c) (editingCustomer c) (alerts c)
                           (storeCalls c ++ [store_clear; store_bulkAdd rows])
          /\ importData (Some parsed) false c = c).
Proof.
  split.
  - intros H. unfold importData. now rewrite (Rejected_importedCustomers parsed H).
  - intros items -> Hnull.
    destruct (mapRows_values items Hnull) as [rows [Hrows Hlen]].
    exists rows. unfold importData, importedCustomers. rewrite Hrows. auto.
Qed.

(** An export of [ann] is a file of the schema. *)
Example export_matchesSchema :
  matchesSchema
    (JArray [JObject [("id"%string, JNumber 1);
                      ("fullName"%string, JString "Ann");
                      ("phone"%string, JString "1");
                      ("note"%string, JString "");
                      ("customSearchField1"%string, JString "");
                      ("type"%string, JString "NEW");
                      ("lastCall"%string, JString "2024-01-05T00:00:00.000Z")]]).
Proof.
  eexists. split; [reflexivity |]. repeat constructor.
  eexists. split; [reflexivity |].
  repeat split; unfold isText, isTypeText, isOptionalNumber, isOptionalDate; simpl; eauto.
  - exists NEW. reflexivity.
  - right. exists jan5_2024. reflexivity.
Qed.

(** C8 as stated fails: the file [[{}]] is well-formed JSON that holds no
    Customer record, and confirmed it is cleared into the store. *)
Lemma importData_takes_any_array :
  ~ matchesSchema (JArray [JObject []])
  /\ importData (Some (Value (JArray [JObject []]))) true
       (mkComponent blankCustomer None [] [store_add bob])
     = mkComponent blankCustomer None []
         [store_add bob; store_clear; store_bulkAdd [mkRow [] None None]].
Proof.
  split; [| reflexivity].
  intros [items [Hitems Hall]]. injection Hitems as <-.
  inversion Hall as [|? ? Hobject _]; subst.
  destruct Hobject as [members [Hmembers [_ [[s Hname] _]]]].
  injection Hmembers as <-. discriminate Hname.
Qed.

Lemma importData_witness :
  importData (Some SyntaxError) true (mkComponent blankCustomer None [] [store_add bob])
  = mkComponent blankCustomer None [invalidAlert] [store_add bob].
Proof.
  apply (proj1 (importData_stops_on_unreadable_file
                  (mkComponent blankCustomer None [] [store_add bob]) true SyntaxError)).
  left. reflexivity.
Defined.

(* ================================================================== *)
(** * More of the view: order, search and sort together *)

Section FilterSortFacts.
Context {A : Type}.

Lemma ForallOrdPairs_filter (R : A -> A -> Prop) (f : A -> bool) (l : list A) :
  ForallOrdPairs R l -> ForallOrdPairs R (List.filter f l).
Proof.
  induction 1 as [|x l Hx _ IH]; simpl; [constructor |].
  destruct (f x); [| exact IH]. constructor; [| exact IH].
  rewrite List.Forall_forall in *. intros y Hy. apply Hx.
  apply filter_In in Hy. tauto.
Qed.

Lemma filter_perm (f : A -> bool) (l l' : list A) :
  Permutation l l' -> Permutation (List.filter f l) (List.filter f l').
Proof.
  induction 1 as [| x l l' _ IH | x y l | l l' l'' _ IH1 _ IH2]; simpl.
  - constructor.
  - destruct (f x); [now constructor | exact IH].
  - destruct (f x), (f y); try reflexivity. apply perm_swap.
  - now transitivity (List.filter f l').
Qed.

Lemma filter_swap (f g : A -> bool) (l : list A) :
  List.filter f (List.filter g l) = List.filter g (List.filter f l).
Proof.
  induction l as [|x l IH]; simpl; [reflexivity |].
  destruct (g x) eqn:Hg, (f x) eqn:Hf; simpl; rewrite ?Hg, ?Hf, IH; reflexivity.
Qed.

Lemma filter_implied (f g : A -> bool) (l : list A) :
  (forall x, f x = true -> g x = true) ->
  List.filter f l = List.filter f (List.filter g l).
Proof.
  intros H. induction l as [|x l IH]; simpl; [reflexivity |].
  destruct (f x) eqn:Hf.
  - rewrite (H x Hf). simpl. now rewrite Hf, IH.
  - destruct (g x); simpl; rewrite ?Hf; exact IH.
Qed.

Variable comparefn : A -> A -> Z.
Hypothesis below_irrefl : forall x, below comparefn x x = false.
Hypothesis below_trans :
  forall x y z,
    below comparefn x y = true -> below comparefn y z = true -> below comparefn x z = true.
Hypothesis below_neg_trans :
  forall x y z,
    below comparefn x y = false -> below comparefn y z = false ->
    below comparefn x z = false.

(** Sorting and then dropping elements is dropping them and then
    sorting. *)
Lemma sort_filter (f : A -> bool) (l : list A) :
  List.filter f (JSArray.sort comparefn l) = JSArray.sort comparefn (List.filter f l).
Proof.
  apply sort_unique; try assumption.
  - apply ForallOrdPairs_filter. now apply sort_Ordered.
  - apply filter_perm, sort_perm.
  - intros x. rewrite filter_swap, sort_stable by assumption. apply filter_swap.
Qed.

End FilterSortFacts.

Section ViewFacts.
Context {L : Collation}.

Lemma comparefn_le_of_not_below key x y :
  missing key x = false -> missing key y = false ->
  below (comparefn key) y x = false -> comparefn key x y <= 0.
Proof.
  unfold below. rewrite Z.ltb_ge.
  destruct key; cbn [comparefn missing nullsAtEnd]; intros Hx Hy H;
    try (pose proof (localeCompare_antisym) as Ha;
         match goal with
         | |- localeCompare ?a ?b <= 0 => specialize (Ha b a); lia
         end).
  - destruct (id x), (id y); try discriminate; simpl in *; lia.
  - destruct (lastCall x), (lastCall y); try discriminate; simpl in *;
      unfold getTime in *; lia.
  - destruct (nextCall x), (nextCall y); try discriminate; simpl in *;
      unfold getTime in *; lia.
Qed.

Lemma noSearch_keeps_all customers : filteredCustomers customers noSearch = customers.
Proof.
  unfold filteredCustomers. induction customers as [|c rest IH]; [reflexivity |].
  cbn [List.filter]. rewrite IH.
  replace (customerMatches noSearch c) with true; [reflexivity |].
  unfold customerMatches, noSearch, callMatch. cbn.
  now rewrite !includes_nil.
Qed.

Lemma filter_sorted (f : Customer -> bool) customers key order :
  List.filter f (sortedAndFilteredCustomers customers key order)
  = sortedAndFilteredCustomers (List.filter f customers) key order.
Proof.
  destruct key as [key|]; [| reflexivity]. cbn [sortedAndFilteredCustomers].
  assert (H : List.filter f (JSArray.sort (comparefn key) customers)
              = JSArray.sort (comparefn key) (List.filter f customers)).
  { apply sort_filter;
      [apply comparefn_irrefl | apply comparefn_trans | apply comparefn_neg_trans]. }
  destruct order; [exact H |].
  unfold JSArray.reverse. now rewrite filter_rev, H.
Qed.

End ViewFacts.

Section SearchFacts.

Lemma append_assoc (a b c : string) : ((a ++ b) ++ c = a ++ (b ++ c))%string.
Proof.
  induction a as [|x a IH]; [reflexivity |].
  change (String x ((a ++ b) ++ c) = String x (a ++ b ++ c))%string.
  now rewrite IH.
Qed.

Lemma contains_trans a b c : contains a b -> contains b c -> contains a c.
Proof.
  intros [p [q ->]] [r [s ->]].
  exists (p ++ r)%string, (s ++ q)%string.
  now rewrite !append_assoc.
Qed.

Lemma contains_in_nil s : contains EmptyString s -> s = EmptyString.
Proof.
  intros [p [q H]]. destruct p; [| discriminate]. destruct s; [reflexivity | discriminate].
Qed.

Lemma toLowerCase_nil s : toLowerCase s = EmptyString -> s = EmptyString.
Proof. destruct s; [reflexivity | discriminate]. Qed.

Lemma idFilter_narrows box box' i :
  contains box' box -> idFilterHolds box' i -> idFilterHolds box i.
Proof.
  intros Hc [-> | [n [-> Hn]]].
  - left. now apply contains_in_nil.
  - right. exists n. split; [reflexivity |]. now apply contains_trans with box'.
Qed.

Lemma textFilter_narrows box box' field :
  contains (toLowerCase box') (toLowerCase box) ->
  textFilterHolds box' field -> textFilterHolds box field.
Proof.
  intros Hc [-> | H].
  - left. now apply toLowerCase_nil, contains_in_nil.
  - right. apply includes_toLowerCase_iff, includes_iff.
    apply contains_trans with (toLowerCase box'); [| exact Hc].
    now apply includes_iff, includes_toLowerCase_iff.
Qed.

Lemma typeFilter_narrows box box' t :
  box = None \/ box = box' -> typeFilterHolds box' t -> typeFilterHolds box t.
Proof. unfold typeFilterHolds. intros [-> | ->]; tauto. Qed.

Lemma dateFilter_narrows box box' call :
  box = EmptyString \/ box = box' -> dateFilterHolds box' call -> dateFilterHolds box call.
Proof. unfold dateFilterHolds. intros [-> | ->]; tauto. Qed.

Lemma narrows_satisfies narrow wide c :
  narrows narrow wide -> satisfies narrow c -> satisfies wide c.
Proof.
  intros [Hid [Hname [Hphone [Hnote [Hcustom [Htype [Hlast Hnext]]]]]]]
         [Sid [Sname [Sphone [Snote [Scustom [Stype [Slast Snext]]]]]]].
  repeat split;
    eauto using idFilter_narrows, textFilter_narrows, typeFilter_narrows,
                dateFilter_narrows.
Qed.

End SearchFacts.

(** X1.  Searching the sorted rows gives the rows of sorting the searched
    ones, for every key and both directions: what is typed in a search box
    takes rows away and never moves one.  The rows on screen are the rows
    that would be there with every box empty, less those that fail a
    box. *)
Theorem search_never_reorders {L : Collation}
  (customers : list Customer) (s : SearchCriteria) (d : SortDirective) :
  displayed customers s d = filteredCustomers (displayed customers noSearch d) s
  /\ filteredCustomers (sortedAndFilteredCustomers customers (sortKey d) (sortOrder d)) s
     = sortedAndFilteredCustomers (filteredCustomers customers s) (sortKey d) (sortOrder d).
Proof.
  unfold displayed. rewrite noSearch_keeps_all.
  unfold filteredCustomers. now rewrite filter_sorted.
Qed.

(** X2.  Ascending, two rows that have the sort field stand in the order
    of the comparator, and a row that has it never follows one that lacks
    it; by [id] the ids never decrease down the table.  Descending it is
    the other way round. *)
Theorem sorted_rows_in_order {L : Collation} (filtered : list Customer) (key : CustomerKey) :
  AscendingBy key (sortedAndFilteredCustomers filtered (Some key) asc)
  /\ DescendingBy key (sortedAndFilteredCustomers filtered (Some key) desc)
  /\ (forall i j x y a b,
        (i < j)%nat ->
        nth_error (sortedAndFilteredCustomers filtered (Some key_id) asc) i = Some x ->
        nth_error (sortedAndFilteredCustomers filtered (Some key_id) asc) j = Some y ->
        id x = Some a -> id y = Some b -> a <= b).
Proof.
  assert (Hasc : forall k, AscendingBy k (sortedAndFilteredCustomers filtered (Some k) asc)).
  { intros k i j x y Hij Hi Hj Hy. cbn [sortedAndFilteredCustomers] in Hi, Hj.
    pose proof (ForallOrdPairs_lookup _ _ (sorted_Ordered k filtered) i j x y Hij Hi Hj)
      as Hb.
    simpl in Hb.
    assert (Hx : missing k x = false).
    { destruct (missing k x) eqn:E; [| reflexivity].
      rewrite (present_below_missing k x y E Hy) in Hb. discriminate. }
    split; [exact Hx |]. now apply comparefn_le_of_not_below. }
  split; [apply Hasc |]. split.
  - intros i j x y Hij Hi Hj Hx. cbn [sortedAndFilteredCustomers] in Hi, Hj.
    unfold JSArray.reverse in Hi, Hj.
    pose proof (ForallOrdPairs_rev _ _ (sorted_Ordered key filtered)) as Hrev.
    pose proof (ForallOrdPairs_lookup _ _ Hrev i j x y Hij Hi Hj) as Hb.
    simpl in Hb.
    assert (Hy : missing key y = false).
    { destruct (missing key y) eqn:E; [| reflexivity].
      rewrite (present_below_missing key y x E Hx) in Hb. discriminate. }
    split; [exact Hy |]. now apply comparefn_le_of_not_below.
  - intros i j x y a b Hij Hi Hj Ha Hb.
    assert (Hy : missing key_id y = false) by (cbn [missing]; now rewrite Hb).
    destruct (Hasc key_id i j x y Hij Hi Hj Hy) as [_ H].
    cbn [comparefn] in H. rewrite Ha, Hb in H. simpl in H. lia.
Qed.

(** X3.  When the boxes of one search ask at least what those of another
    ask, its rows are selected from the rows of the other: going on typing
    in a box, or setting a box that was empty, only takes rows away. *)
Theorem narrower_search_selects_from_wider
  (customers : list Customer) (narrow wide : SearchCriteria) :
  narrows narrow wide ->
  filteredCustomers customers narrow
  = filteredCustomers (filteredCustomers customers wide) narrow
  /\ (forall c, In c (filteredCustomers customers narrow) ->
                In c (filteredCustomers customers wide)).
Proof.
  intros H.
  assert (Himp : forall c, customerMatches narrow c = true -> customerMatches wide c = true).
  { intros c. rewrite !customerMatches_iff. now apply narrows_satisfies. }
  split.
  - unfold filteredCustomers. now apply filter_implied.
  - intros c. unfold filteredCustomers. rewrite !filter_In. intuition.
Qed.

Lemma narrower_search_witness :
  filteredCustomers [ann; bob; amy] (mkSearch "" "aN" "" "" "" (Some NEW) "" "")
  = filteredCustomers
      (filteredCustomers [ann; bob; amy] (mkSearch "" "a" "" "" "" None "" ""))
      (mkSearch "" "aN" "" "" "" (Some NEW) "" "").
Proof.
  refine (proj1 (narrower_search_selects_from_wider [ann; bob; amy]
                   (mkSearch "" "aN" "" "" "" (Some NEW) "" "")
                   (mkSearch "" "a" "" "" "" None "" "") _)).
  unfold narrows; simpl;
    repeat split; try (apply includes_iff; reflexivity); left; reflexivity.
Defined.

(* ================================================================== *)
(** * Facts about the handlers *)

Section HandlerFacts.



Lemma run_app actions actions' c : run (actions ++ actions') c = run actions' (run actions c).
Proof. apply fold_left_app. Qed.

Lemma last_cons {A : Type} (l : list A) :
  forall x d, List.last (x :: l) d = List.last l x.
Proof.
  induction l as [|y l IH]; intros x d; [reflexivity |].
  change (List.last (x :: y :: l) d) with (List.last (y :: l) d).
  now rewrite !IH.
Qed.

(** Typing in the edit form leaves there what was typed last. *)
Lemma run_typeEdit edits :
  forall pending edited notes calls,
    run (map typeEdit edits) (mkComponent pending (Some edited) notes calls)
    = mkComponent pending (Some (List.last edits edited)) notes calls.
Proof.
  induction edits as [|r edits IH]; intros pending edited notes calls; [reflexivity |].
  change (run (map typeEdit (r :: edits)) (mkComponent pending (Some edited) notes calls))
    with (run (map typeEdit edits) (mkComponent pending (Some r) notes calls)).
  rewrite IH. now rewrite last_cons.
Qed.

Lemma sortBy_other key d : sortKey d <> Some key -> sortBy key d = mkDirective (Some key) asc.
Proof. intros H. unfold sortBy. now rewrite (isSortKey_false d key H). Qed.

Lemma sortBy_same key order :
  sortBy key (mkDirective (Some key) order) = mkDirective (Some key) (opposite order).
Proof.
  unfold sortBy.
  now rewrite (proj2 (isSortKey_iff (mkDirective (Some key) order) key) eq_refl).
Qed.

Lemma clicks_same key n :
  forall order,
    clicks (repeat key n) (mkDirective (Some key) order)
    = mkDirective (Some key) (if Nat.even n then order else opposite order).
Proof.
  induction n as [|n IH]; intros order; [reflexivity |].
  change (clicks (repeat key (S n)) (mkDirective (Some key) order))
    with (clicks (repeat key n) (sortBy key (mkDirective (Some key) order))).
  rewrite sortBy_same, IH, Nat.even_succ, <- Nat.negb_even.
  destruct (Nat.even n), order; reflexivity.
Qed.

Lemma sortBy_key key d : sortKey (sortBy key d) = Some key.
Proof.
  unfold sortBy. destruct (isSortKey d key) eqn:E; [| reflexivity].
  now apply isSortKey_iff in E.
Qed.

End HandlerFacts.




(** X6.  A record taken into the edit form, typed over any number of
    times and then cancelled leaves no trace: no call to the store, no
    alert, the add form as it was, and an Update after it does nothing.
    Saved instead, it makes one call, [update] with what was typed last
    (the record itself when nothing was typed) under that record's id. *)
Theorem edit_then_cancel_or_save
  (customer : Customer) (edits : list Customer) (c : Component) :
  run (clickEdit customer :: map typeEdit edits ++ [clickCancel]) c
  = mkComponent (newCustomer c) None (alerts c) (storeCalls c)
  /\ run (clickEdit customer :: map typeEdit edits ++ [clickCancel; submitUpdate]) c
     = mkComponent (newCustomer c) None (alerts c) (storeCalls c)
  /\ run (clickEdit customer :: map typeEdit edits ++ [submitUpdate]) c
     = mkComponent (newCustomer c) None (alerts c)
         (storeCalls c
          ++ [store_update (id (List.last edits customer)) (List.last edits customer)]).
Proof.
  assert (H : forall tail,
            run (clickEdit customer :: map typeEdit edits ++ tail) c
            = run tail (mkComponent (newCustomer c) (Some (List.last edits customer))
                                    (alerts c) (storeCalls c))).
  { intros tail.
    change (run (clickEdit customer :: map typeEdit edits ++ tail) c)
      with (run (map typeEdit edits ++ tail) (startEditing customer c)).
    rewrite run_app. unfold startEditing. now rewrite run_typeEdit. }
  rewrite !H. repeat split.
Qed.

(** X7.  After a click on a header that header is the sort key, so no
    click brings the table back to unsorted.  A header that was not the
    key and is clicked n + 1 times in a row sorts ascending when n is even
    and descending when n is odd, whatever was clicked before. *)
Theorem header_clicks (d : SortDirective) (keys : list CustomerKey) (key : CustomerKey)
  (n : nat) :
  sortKey (clicks (keys ++ [key]) d) = Some key
  /\ (sortKey d <> Some key ->
      clicks (repeat key (S n)) d
      = mkDirective (Some key) (if Nat.even n then asc else desc))
  /\ (forall other, other <> key ->
      clicks (keys ++ other :: repeat key (S n)) d
      = mkDirective (Some key) (if Nat.even n then asc else desc)).
Proof.
  assert (Hrun : forall d', sortKey d' <> Some key ->
            clicks (repeat key (S n)) d'
            = mkDirective (Some key) (if Nat.even n then asc else desc)).
  { intros d' H.
    change (clicks (repeat key (S n)) d') with (clicks (repeat key n) (sortBy key d')).
    now rewrite (sortBy_other key d' H), clicks_same. }
  assert (Hlast : forall ks k, sortKey (clicks (ks ++ [k]) d) = Some k).
  { intros ks k. unfold clicks. rewrite fold_left_app. apply sortBy_key. }
  split; [apply Hlast |]. split; [apply Hrun |].
  intros other Hother.
  replace (keys ++ other :: repeat key (S n)) with ((keys ++ [other]) ++ repeat key (S n))
    by now rewrite <- app_assoc.
  unfold clicks at 1. rewrite fold_left_app. apply Hrun.
  fold (clicks (keys ++ [other]) d). rewrite Hlast. congruence.
Qed.

Lemma header_clicks_witness :
  clicks [key_id; key_id; key_id] initialDirective = mkDirective (Some key_id) asc.
Proof.
  apply (proj1 (proj2 (header_clicks initialDirective [] key_id 2))).
  discriminate.
Defined.

(** X8.  The search of the later component, with the four boxes it added
    left empty (id, note and the two dates), selects what the search of
    the earlier component selects. *)
Theorem earlier_filter_is_later_filter
  (customers : list Customer) (s : EarlierSearch) :
  earlierFilteredCustomers customers s
  = filteredCustomers customers
      (mkSearch "" (earlierFullName s) (earlierPhone s) "" (earlierCustomField s)
                (earlierType s) "" "").
Proof.
  unfold earlierFilteredCustomers, filteredCustomers. apply filter_ext. intros c.
  unfold customerMatches, callMatch. cbn [searchId searchFullName searchPhone searchNote
    searchCustomField searchType searchLastCall searchNextCall truthy negb toLowerCase].
  rewrite includes_nil.
  destruct (includes _ _), (includes _ _), (includes _ _);
    destruct (earlierType s) as [t|]; try reflexivity;
    destruct (CustomerType_eqb (type c) t); reflexivity.
Qed.

(* ================================================================== *)
(** * Facts about useTheme *)

Section ThemeFacts.
Import Theme.

Lemma useTheme_truthy p : truthy (fst (useTheme p)) = true.
Proof.
  unfold useTheme. cbn [fst]. destruct (storedTheme p) as [stored|]; [| reflexivity].
  destruct (truthy stored) eqn:E; [exact E | reflexivity].
Qed.

Lemma toggleTheme_cases state :
  (fst state = LIGHT /\ fst (toggleTheme state) = DARK)
  \/ (fst state <> LIGHT /\ fst (toggleTheme state) = LIGHT).
Proof.
  unfold toggleTheme. cbn [fst].
  destruct (String.eqb_spec (fst state) LIGHT); [left | right]; auto.
Qed.

Lemma toggles_truthy n p : truthy (fst (toggles n (useTheme p))) = true.
Proof.
  destruct n as [|n]; [apply useTheme_truthy |]. cbn [toggles].
  destruct (toggleTheme_cases (toggles n (useTheme p))) as [[_ ->] | [_ ->]]; reflexivity.
Qed.

Lemma toggles_page n p :
  snd (toggles n (useTheme p))
  = mkPage (Some (fst (toggles n (useTheme p)))) (Some (fst (toggles n (useTheme p)))).
Proof. destruct n; reflexivity. Qed.

End ThemeFacts.

(** X9.  After [useTheme] and any number of toggles, the [theme] item of
    [localStorage] and the [data-theme] attribute hold the current theme,
    and a new [useTheme] on that page (a reload) starts with it. *)
Theorem theme_survives_reload (p : Theme.Page) (n : nat) :
  let state := Theme.toggles n (Theme.useTheme p) in
  Theme.storedTheme (snd state) = Some (fst state)
  /\ Theme.dataTheme (snd state) = Some (fst state)
  /\ fst (Theme.useTheme (snd state)) = fst state.
Proof.
  cbv zeta. pose proof (toggles_truthy n p) as Ht. pose proof (toggles_page n p) as Hp.
  destruct (Theme.toggles n (Theme.useTheme p)) as [theme page].
  cbn [fst snd] in *. subst page. repeat split.
  unfold Theme.useTheme. cbn [fst Theme.storedTheme]. now rewrite Ht.
Qed.

(** X10.  A toggle always ends on light or dark: on dark from light, on
    light from anything else, a stored text that is no theme included.
    From light or dark two toggles come back to where they started; after
    the first toggle the theme alternates, whatever was stored. *)
Theorem toggleTheme_alternates (state : string * Theme.Page) :
  ((fst state = Theme.LIGHT /\ fst (Theme.toggleTheme state) = Theme.DARK)
   \/ (fst state <> Theme.LIGHT /\ fst (Theme.toggleTheme state) = Theme.LIGHT))
  /\ (fst state = Theme.LIGHT \/ fst state = Theme.DARK ->
      fst (Theme.toggleTheme (Theme.toggleTheme state)) = fst state)
  /\ fst (Theme.toggleTheme (Theme.toggleTheme (Theme.toggleTheme state)))
     = fst (Theme.toggleTheme state)
  /\ fst (Theme.toggleTheme (Theme.useTheme (Theme.mkPage (Some "blue"%string) None)))
     = Theme.LIGHT.
Proof.
  split; [apply toggleTheme_cases |]. split; [| split; [| reflexivity]].
  - intros [H | H]; unfold Theme.toggleTheme; cbn [fst]; rewrite H; reflexivity.
  - destruct (toggleTheme_cases state) as [[_ H] | [_ H]];
      unfold Theme.toggleTheme at 1 2; cbn [fst]; rewrite H; reflexivity.
Qed.

Lemma toggleTheme_witness :
  fst (Theme.toggleTheme
         (Theme.toggleTheme (Theme.DARK, Theme.mkPage (Some Theme.DARK) (Some Theme.DARK))))
  = Theme.DARK.
Proof.
  apply (proj1 (proj2 (toggleTheme_alternates
                         (Theme.DARK, Theme.mkPage (Some Theme.DARK) (Some Theme.DARK))))).
  right. reflexivity.
Defined.

(* ================================================================== *)
(** * Facts about the calendar *)

Section CalendarFacts.

Lemma yearOfEra_bounds doe :
  0 <= doe < 146097 ->
  let yoe := (doe - doe / 1460 + doe / 36524 - doe / 146096) / 365 in
  let doy := doe - (365 * yoe + yoe / 4 - yoe / 100) in
  0 <= yoe <= 399 /\ 0 <= doy <= 365.
Proof. intros H yoe doy. subst doy yoe. Z.div_mod_to_equations. lia. Qed.

Lemma yearOfEra_back yoe doy :
  0 <= yoe <= 399 -> 0 <= doy ->
  (doy <= 364
   \/ (doy = 365 /\ (yoe + 1) mod 4 = 0
       /\ ((yoe + 1) mod 100 <> 0 \/ (yoe + 1) mod 400 = 0))) ->
  let doe := yoe * 365 + yoe / 4 - yoe / 100 + doy in
  0 <= doe < 146097
  /\ (doe - doe / 1460 + doe / 36524 - doe / 146096) / 365 = yoe.
Proof. intros H H0 H1 doe. subst doe. Z.div_mod_to_equations. lia. Qed.

(** From the day of the year, counted from March, to month and day and
    back. *)
Lemma monthOfYear_back doy :
  0 <= doy <= 365 ->
  let mp := (5 * doy + 2) / 153 in
  let d := doy - (153 * mp + 2) / 5 + 1 in
  0 <= mp <= 11 /\ 1 <= d <= 31.
Proof. intros H mp d. subst d mp. Z.div_mod_to_equations. lia. Qed.

Lemma dayOfCalendar_calendarOfDay n : dayOfCalendar (calendarOfDay n) = n.
Proof.
  unfold calendarOfDay, dayOfCalendar.
  set (z := n + 719468). set (era := z / 146097). set (doe := z - era * 146097).
  assert (Hdoe : 0 <= doe < 146097) by (subst doe era; Z.div_mod_to_equations; lia).
  destruct (yearOfEra_bounds doe Hdoe) as [Hyoe Hdoy].
  set (yoe := (doe - doe / 1460 + doe / 36524 - doe / 146096) / 365) in *.
  set (doy := doe - (365 * yoe + yoe / 4 - yoe / 100)) in *.
  destruct (monthOfYear_back doy Hdoy) as [Hmp Hd].
  set (mp := (5 * doy + 2) / 153) in *.
  cbn [year month day].
  destruct (Z.ltb_spec mp 10) as [Hlt | Hge].
  - destruct (Z.leb_spec (mp + 3) 2); [lia |].
    replace (mp + 3 - 3) with mp by lia.
    replace ((yoe + era * 400) / 400) with era by (Z.div_mod_to_equations; lia).
    replace (yoe + era * 400 - era * 400) with yoe by lia.
    generalize dependent ((153 * mp + 2) / 5). intros q.
    subst doy. generalize dependent (yoe / 4). generalize dependent (yoe / 100).
    intros. subst doe z. lia.
  - destruct (Z.leb_spec (mp - 9) 2); [| lia].
    replace (mp - 9 + 9) with mp by lia.
    replace (yoe + era * 400 + 1 - 1) with (yoe + era * 400) by lia.
    replace ((yoe + era * 400) / 400) with era by (Z.div_mod_to_equations; lia).
    replace (yoe + era * 400 - era * 400) with yoe by lia.
    generalize dependent ((153 * mp + 2) / 5). intros q.
    subst doy. generalize dependent (yoe / 4). generalize dependent (yoe / 100).
    intros. subst doe z. lia.
Qed.

Lemma calendarOfDay_fields n :
  1 <= month (calendarOfDay n) <= 12 /\ 1 <= day (calendarOfDay n) <= 31.
Proof.
  unfold calendarOfDay.
  set (z := n + 719468). set (era := z / 146097). set (doe := z - era * 146097).
  assert (Hdoe : 0 <= doe < 146097) by (subst doe era; Z.div_mod_to_equations; lia).
  destruct (yearOfEra_bounds doe Hdoe) as [Hyoe Hdoy].
  set (yoe := (doe - doe / 1460 + doe / 36524 - doe / 146096) / 365) in *.
  set (doy := doe - (365 * yoe + yoe / 4 - yoe / 100)) in *.
  destruct (monthOfYear_back doy Hdoy) as [Hmp Hd].
  set (mp := (5 * doy + 2) / 153) in *.
  cbn [year month day].
  destruct (Z.ltb_spec mp 10); lia.
Qed.

(** The year of a time value a [Date] can hold has at most six digits. *)
Lemma calendarOfDay_year n :
  - 100000000 <= n <= 100000000 ->
  - 999999 <= year (calendarOfDay n) <= 999999.
Proof.
  intros Hn. unfold calendarOfDay.
  set (z := n + 719468). set (era := z / 146097). set (doe := z - era * 146097).
  assert (Hdoe : 0 <= doe < 146097) by (subst doe era; Z.div_mod_to_equations; lia).
  destruct (yearOfEra_bounds doe Hdoe) as [Hyoe _].
  set (yoe := (doe - doe / 1460 + doe / 36524 - doe / 146096) / 365) in *.
  cbn [year].
  assert (- 1000 <= era <= 1000) by (subst era z; Z.div_mod_to_equations; lia).
  destruct (_ <=? 2); lia.
Qed.

Lemma leapYear_true y :
  leapYear y = true -> y mod 4 = 0 /\ (y mod 100 <> 0 \/ y mod 400 = 0).
Proof.
  unfold leapYear. rewrite andb_true_iff, orb_true_iff, negb_true_iff.
  rewrite !Z.eqb_eq, Z.eqb_neq. tauto.
Qed.

(** The day of the year, counted from March, of a date of the calendar,
    and the month and day read back from it. *)
Lemma dayOfYear_valid Y m d :
  validCalendarDate (mkCalendarDate Y m d) = true ->
  let mp := if m <=? 2 then m + 9 else m - 3 in
  let doy := (153 * mp + 2) / 5 + d - 1 in
  0 <= mp <= 11 /\ 0 <= doy
  /\ (doy <= 364 \/ (doy = 365 /\ m = 2 /\ leapYear Y = true))
  /\ (5 * doy + 2) / 153 = mp.
Proof.
  unfold validCalendarDate. cbn [year month day].
  rewrite !andb_true_iff, !Z.leb_le. intros [[[Hm1 Hm12] Hd1] Hd].
  assert (Hm : m = 1 \/ m = 2 \/ m = 3 \/ m = 4 \/ m = 5 \/ m = 6 \/ m = 7 \/ m = 8
               \/ m = 9 \/ m = 10 \/ m = 11 \/ m = 12) by lia.
  unfold daysInMonth in Hd.
  repeat (destruct Hm as [-> | Hm]); try subst m;
    cbn [Z.eqb Z.leb Z.compare Pos.compare Pos.compare_cont Pos.eqb orb] in *;
    try (destruct (leapYear Y) eqn:Hleap);
    cbv zeta; repeat split; try lia;
    try (change ((153 * (1 + 9) + 2) / 5) with 306);
    try (change ((153 * (2 + 9) + 2) / 5) with 337);
    try (Z.div_mod_to_equations; lia).
Qed.

Lemma calendarOfDay_dayOfCalendar c :
  validCalendarDate c = true -> calendarOfDay (dayOfCalendar c) = c.
Proof.
  destruct c as [Y m d]. intros Hvalid.
  destruct (dayOfYear_valid Y m d Hvalid) as [Hmp [Hdoy0 [Hdoy Hback]]].
  unfold dayOfCalendar, calendarOfDay. cbn [year month day].
  set (y := if m <=? 2 then Y - 1 else Y).
  set (era := y / 400). set (yoe := y - era * 400).
  set (mp := if m <=? 2 then m + 9 else m - 3) in *.
  set (doy := (153 * mp + 2) / 5 + d - 1) in *.
  assert (Hyoe : 0 <= yoe <= 399) by (subst yoe era; Z.div_mod_to_equations; lia).
  assert (Hleap : doy <= 364
                  \/ (doy = 365 /\ (yoe + 1) mod 4 = 0
                      /\ ((yoe + 1) mod 100 <> 0 \/ (yoe + 1) mod 400 = 0))).
  { destruct Hdoy as [H | [H [Hm H']]]; [now left | right].
    apply leapYear_true in H'. subst m. cbn in y. subst y.
    split; [exact H |]. subst yoe era. Z.div_mod_to_equations. lia. }
  destruct (yearOfEra_back yoe doy Hyoe Hdoy0 Hleap) as [Hdoe Hyear].
  set (doe := yoe * 365 + yoe / 4 - yoe / 100 + doy) in *.
  replace (era * 146097 + doe - 719468 + 719468) with (doe + era * 146097) by lia.
  replace ((doe + era * 146097) / 146097) with era by (Z.div_mod_to_equations; lia).
  replace (doe + era * 146097 - era * 146097) with doe by lia.
  rewrite Hyear.
  replace (doe - (365 * yoe + yoe / 4 - yoe / 100)) with doy by (subst doe; lia).
  rewrite Hback.
  replace (doy - (153 * mp + 2) / 5 + 1) with d by (subst doy; lia).
  unfold validCalendarDate in Hvalid. cbn [year month day] in Hvalid.
  rewrite !andb_true_iff, !Z.leb_le in Hvalid.
  subst mp y. destruct (Z.leb_spec m 2) as [Hle | Hgt].
  - destruct (Z.ltb_spec (m + 9) 10); [lia |].
    replace (m + 9 - 9) with m by lia.
    destruct (Z.leb_spec m 2); [| lia].
    f_equal. subst yoe. lia.
  - destruct (Z.ltb_spec (m - 3) 10); [| lia].
    replace (m - 3 + 3) with m by lia.
    destruct (Z.leb_spec m 2); [lia |].
    f_equal. subst yoe. lia.
Qed.

Lemma Day_of_midnight n : Day (n * msPerDay) = n.
Proof. unfold Day, msPerDay. now rewrite Z.div_mul. Qed.

End CalendarFacts.

(* ================================================================== *)
(** * Facts about reading the ISO text *)

Section ReaderFacts.

Lemma append_nil_r (s : string) : (s ++ "")%string = s.
Proof.
  induction s as [|c s IH]; [reflexivity |].
  change (String c (s ++ "") = String c s)%string. now rewrite IH.
Qed.

Lemma digitValue_digitChar n : digitValue (digitChar n) = Some (n mod 10).
Proof.
  unfold digitChar.
  assert (H : (Z.to_nat (n mod 10) < 10)%nat)
    by (pose proof (Z.mod_pos_bound n 10 eq_refl); lia).
  assert (E : n mod 10 = Z.of_nat (Z.to_nat (n mod 10)))
    by (pose proof (Z.mod_pos_bound n 10 eq_refl); lia).
  rewrite E at 2. clear E.
  destruct (Z.to_nat (n mod 10)) as [|k]; [reflexivity |].
  do 9 (destruct k as [|k]; [reflexivity |]). lia.
Qed.

Lemma readDigits_digits width :
  forall more acc n rest,
    readDigits (width + more) acc (digits width n ++ rest)
    = readDigits more (acc * 10 ^ Z.of_nat width + n mod 10 ^ Z.of_nat width) rest.
Proof.
  induction width as [|w IH]; intros more acc n rest.
  - cbn [digits Nat.add]. change (readDigits more acc rest = readDigits more
      (acc * 1 + n mod 1) rest). rewrite Z.mod_1_r. f_equal. lia.
  - cbn [digits]. rewrite append_assoc.
    change (String (digitChar n) "" ++ rest)%string with (String (digitChar n) rest).
    replace (S w + more)%nat with (w + S more)%nat by lia.
    rewrite IH. cbn [readDigits]. rewrite digitValue_digitChar.
    f_equal. rewrite Nat2Z.inj_succ, Z.pow_succ_r by lia.
    rewrite (Z.rem_mul_r n 10 (10 ^ Z.of_nat w)) by lia. lia.
Qed.

Lemma readDigits_exact width n rest :
  0 <= n < 10 ^ Z.of_nat width ->
  readDigits width 0 (digits width n ++ rest) = Some (n, rest).
Proof.
  intros H. replace width with (width + 0)%nat at 1 by lia.
  rewrite readDigits_digits. cbn [readDigits]. now rewrite Z.mod_small.
Qed.

Lemma digits_head width :
  forall n rest,
    exists s, (digits (S width) n ++ rest)%string
              = String (digitChar (n / 10 ^ Z.of_nat width)) s.
Proof.
  induction width as [|w IH]; intros n rest.
  - exists rest. cbn [digits]. now rewrite Z.div_1_r.
  - cbn [digits]. rewrite append_assoc.
    change (String (digitChar n) "" ++ rest)%string with (String (digitChar n) rest).
    destruct (IH (n / 10) (String (digitChar n) rest)) as [s Hs].
    exists s. cbn [digits] in Hs. rewrite Hs. do 2 f_equal.
    rewrite Nat2Z.inj_succ, Z.pow_succ_r, Z.div_div by lia. reflexivity.
Qed.

Lemma readYear_digit c s v :
  digitValue c = Some v -> readYear (String c s) = readDigits 4 0 (String c s).
Proof.
  destruct c as [[] [] [] [] [] [] [] []]; intros H; try discriminate H; reflexivity.
Qed.

Lemma readYear_isoYear y rest :
  - 999999 <= y <= 999999 -> readYear (isoYear y ++ rest) = Some (y, rest).
Proof.
  intros Hy. unfold isoYear.
  destruct (Z.leb_spec 0 y) as [H0 | H0]; cbn [andb].
  - destruct (Z.leb_spec y 9999) as [H1 | H1].
    + destruct (digits_head 3 y rest) as [s Hs].
      rewrite Hs, (readYear_digit _ _ _ (digitValue_digitChar _)), <- Hs.
      apply readDigits_exact. cbn. lia.
    + destruct (Z.ltb_spec y 0); [lia |].
      change (readDigits 6 0 (digits 6 y ++ rest) = Some (y, rest)).
      apply readDigits_exact. cbn. lia.
  - destruct (Z.ltb_spec y 0); [| lia].
    change (match readDigits 6 0 (digits 6 (- y) ++ rest) with
            | Some (v, rest') => Some (- v, rest')
            | None => None
            end = Some (y, rest)).
    rewrite readDigits_exact by (cbn; lia). f_equal. f_equal. lia.
Qed.

Lemma append_cons c (s t : string) : (String c s ++ t)%string = String c (s ++ t).
Proof. reflexivity. Qed.

Lemma append_nil_l (t : string) : ("" ++ t)%string = t.
Proof. reflexivity. Qed.

Lemma expect_same c s : expect c (String c s) = Some s.
Proof. unfold expect. now rewrite Ascii.eqb_refl. Qed.

Ltac read_on :=
  repeat (progress (rewrite ?append_assoc, ?append_cons, ?append_nil_l, ?expect_same;
                    cbn [mbind option_bind])).

Lemma readDate_isoDate c rest :
  - 999999 <= year c <= 999999 -> 1 <= month c <= 12 -> 1 <= day c <= 31 ->
  readDate (isoDate c ++ rest) = Some (c, rest).
Proof.
  intros Hy Hm Hd. unfold readDate, isoDate.
  read_on. rewrite readYear_isoYear by assumption. read_on.
  rewrite readDigits_exact by (cbn; lia). read_on.
  rewrite readDigits_exact by (cbn; lia). read_on.
  destruct (Z.leb_spec 1 (month c)), (Z.leb_spec (month c) 12),
           (Z.leb_spec 1 (day c)), (Z.leb_spec (day c) 31); try lia.
  destruct c; reflexivity.
Qed.

Lemma readTime_isoTime ms :
  0 <= ms < msPerDay -> readTime (isoTime ms ++ "Z") = Some ms.
Proof.
  unfold msPerDay. intros H. unfold readTime, isoTime. read_on.
  rewrite readDigits_exact by (cbn; Z.div_mod_to_equations; lia). read_on.
  rewrite readDigits_exact by (cbn; Z.div_mod_to_equations; lia). read_on.
  rewrite readDigits_exact by (cbn; Z.div_mod_to_equations; lia). read_on.
  rewrite readDigits_exact by (cbn; Z.div_mod_to_equations; lia). read_on.
  cbn [truthy negb].
  destruct (Z.leb_spec (ms / 3600000) 23); [| Z.div_mod_to_equations; lia].
  destruct (Z.leb_spec (ms / 60000 mod 60) 59); [| Z.div_mod_to_equations; lia].
  destruct (Z.leb_spec (ms / 1000 mod 60) 59); [| Z.div_mod_to_equations; lia].
  cbn [andb]. f_equal. Z.div_mod_to_equations. lia.
Qed.

Lemma isoParse_toISOString t :
  - maxTime <= t <= maxTime -> isoParse (toISOString t) = ValidDate t.
Proof.
  unfold maxTime. intros Ht. unfold isoParse, toISOString.
  pose proof (calendarOfDay_fields (Day t)) as [Hm Hd].
  assert (Hy : - 999999 <= year (calendarOfDay (Day t)) <= 999999).
  { apply calendarOfDay_year. unfold Day, msPerDay. Z.div_mod_to_equations. lia. }
  rewrite readDate_isoDate by assumption.
  rewrite append_cons, append_nil_l. cbv iota beta.
  rewrite readTime_isoTime
    by (unfold TimeWithinDay, msPerDay; Z.div_mod_to_equations; lia).
  rewrite dayOfCalendar_calendarOfDay. f_equal.
  unfold Day, TimeWithinDay, msPerDay. Z.div_mod_to_equations. lia.
Qed.

Lemma isoParse_isoDate c :
  validCalendarDate c = true -> 0 <= year c <= 9999 ->
  isoParse (isoDate c) = ValidDate (dayOfCalendar c * msPerDay).
Proof.
  intros Hvalid Hy. unfold isoParse.
  rewrite <- (append_nil_r (isoDate c)).
  rewrite readDate_isoDate; [reflexivity | lia | |];
    unfold validCalendarDate in Hvalid;
    rewrite !andb_true_iff, !Z.leb_le in Hvalid; [lia |].
  assert (daysInMonth (year c) (month c) <= 31).
  { unfold daysInMonth. destruct (_ =? 2); [destruct (leapYear _); lia |].
    destruct (_ || _); lia. }
  lia.
Qed.

End ReaderFacts.

(** The reader of the two formats reads them as ECMAScript asks. *)
Definition isoParser : DateParser :=
  Build_DateParser isoParse isoParse_toISOString isoParse_isoDate.

(* ================================================================== *)
(** * Facts about the date inputs *)

Section FormDateFacts.

Context {P : DateParser}.

Lemma truthy_app_cons (a : string) (c : ascii) (b : string) :
  truthy (a ++ String c b) = true.
Proof. destruct a; reflexivity. Qed.

Lemma isoDate_truthy c : truthy (isoDate c) = true.
Proof. unfold isoDate. apply (truthy_app_cons (isoYear (year c)) "-"). Qed.

Lemma toISOString_truthy d : truthy (toISOString d) = true.
Proof. unfold toISOString. apply (truthy_app_cons (isoDate _) "T"). Qed.

Lemma validCalendarDate_fields c :
  validCalendarDate c = true -> 1 <= month c <= 12 /\ 1 <= day c <= 31.
Proof.
  unfold validCalendarDate. rewrite !andb_true_iff, !Z.leb_le. intros H.
  assert (daysInMonth (year c) (month c) <= 31).
  { unfold daysInMonth. destruct (_ =? 2); [destruct (leapYear _); lia |].
    destruct (_ || _); lia. }
  lia.
Qed.

(** Two dates of the calendar have two texts. *)
Lemma isoDate_inj c1 c2 :
  validCalendarDate c1 = true -> - 999999 <= year c1 <= 999999 ->
  validCalendarDate c2 = true -> - 999999 <= year c2 <= 999999 ->
  isoDate c1 = isoDate c2 -> c1 = c2.
Proof.
  intros V1 Y1 V2 Y2 E.
  destruct (validCalendarDate_fields _ V1), (validCalendarDate_fields _ V2).
  pose proof (readDate_isoDate c1 EmptyString Y1 ltac:(assumption) ltac:(assumption)) as R1.
  pose proof (readDate_isoDate c2 EmptyString Y2 ltac:(assumption) ltac:(assumption)) as R2.
  rewrite E, R2 in R1. congruence.
Qed.

Lemma formatDate_valid t : formatDate (ValidDate t) = Some (isoDate (calendarOfDay (Day t))).
Proof. unfold formatDate. cbn [getTimeOf toISOStringOf]. now rewrite toISOString_date. Qed.

Lemma formatDate_shape date :
  exists text, formatDate date = Some text
    /\ (text = EmptyString \/ exists t, text = isoDate (calendarOfDay (Day t))).
Proof.
  destruct date as [t|].
  - rewrite formatDate_valid. eauto.
  - exists EmptyString. split; [reflexivity | now left].
Qed.

Lemma safeFormatForInput_call call :
  safeFormatForInput (fieldOfCall call) = Some (shownDate call).
Proof. destruct call as [t|]; [apply formatDate_valid | reflexivity]. Qed.

Lemma dateOfInput_date c :
  validCalendarDate c = true -> 0 <= year c <= 9999 ->
  dateOfInput (isoDate c) = fieldOfCall (Some (dayOfCalendar c * msPerDay)).
Proof.
  intros V Y. unfold dateOfInput. rewrite isoDate_truthy.
  now rewrite Date_parse_date.
Qed.

Lemma shownDate_midnight c :
  validCalendarDate c = true -> shownDate (Some (dayOfCalendar c * msPerDay)) = isoDate c.
Proof.
  intros V. cbn [shownDate]. now rewrite Day_of_midnight, calendarOfDay_dayOfCalendar.
Qed.

End FormDateFacts.

(** X11.  [safeFormatForInput] returns for every value of a date field,
    and returns the empty text or the text of a calendar date: the date
    of the instant for a [Date], whatever its time of day, and the empty
    text for the invalid date.  The getters of the earlier component
    return the same text wherever they return; they throw on every text
    that is not empty and on the invalid date. *)
Theorem safeFormatForInput_never_throws {P : DateParser} (d : DateField) :
  (exists text, safeFormatForInput d = Some text
     /\ (text = EmptyString \/ exists t, text = isoDate (calendarOfDay (Day t))))
  /\ (forall text, earlierFormat d = Some text -> safeFormatForInput d = Some text)
  /\ (forall t, safeFormatForInput (DateObject (ValidDate t))
                = Some (isoDate (calendarOfDay (Day t))))
  /\ safeFormatForInput (DateObject InvalidDate) = Some EmptyString
  /\ earlierFormat (DateObject InvalidDate) = None
  /\ (forall s, truthy s = true -> earlierFormat (DateText s) = None).
Proof.
  split; [| split; [| split; [| split; [| split]]]].
  - destruct d as [|s|date]; cbn [safeFormatForInput].
    + exists EmptyString. split; [reflexivity | now left].
    + destruct (truthy s); [apply formatDate_shape |].
      exists EmptyString. split; [reflexivity | now left].
    + apply formatDate_shape.
  - intros text. destruct d as [|s|[t|]]; cbn [safeFormatForInput earlierFormat].
    + trivial.
    + destruct (truthy s); [discriminate | trivial].
    + rewrite formatDate_valid. cbn [toISOStringOf]. now rewrite toISOString_date.
    + discriminate.
  - intros t. apply formatDate_valid.
  - reflexivity.
  - reflexivity.
  - intros s H. cbn [earlierFormat]. now rewrite H.
Qed.

(** X12.  What the date inputs of the two forms show.  The edit form
    opened on a record shows the calendar dates of its two calls, nothing
    for a call it lacks; once the edit is cancelled or saved both inputs
    are empty; the add form shows the dates of the pending record, and
    nothing once the record is added.  No getter throws. *)
Theorem forms_show_call_dates {P : DateParser} (customer : Customer) (c : Component) :
  editingLastCall (startEditing customer c) = Some (shownDate (lastCall customer))
  /\ editingNextCall (startEditing customer c) = Some (shownDate (nextCall customer))
  /\ editingLastCall (cancelEdit (startEditing customer c)) = Some EmptyString
  /\ editingNextCall (updateCustomer (startEditing customer c)) = Some EmptyString
  /\ newLastCall c = Some (shownDate (lastCall (newCustomer c)))
  /\ newNextCall c = Some (shownDate (nextCall (newCustomer c)))
  /\ (alerts (addCustomer c) = alerts c ->
      newLastCall (addCustomer c) = Some EmptyString
      /\ newNextCall (addCustomer c) = Some EmptyString).
Proof.
  unfold editingLastCall, editingNextCall, newLastCall, newNextCall.
  repeat split; try apply safeFormatForInput_call; try reflexivity.
  all: revert H; unfold addCustomer;
    destruct (negb (truthy (fullName (newCustomer c)))
              || negb (truthy (phone (newCustomer c))));
    cbn [alerts newCustomer]; [| reflexivity];
    intros H; apply (f_equal (@length string)) in H;
    rewrite length_app in H; cbn [length] in H; lia.
Qed.

(** X13.  A date typed into a date input comes back from its getter: the
    setter stores midnight UTC of that day, and [safeFormatForInput]
    gives the same text again; an emptied input stores no date and shows
    nothing. *)
Theorem date_input_round_trip {P : DateParser} (c : CalendarDate) :
  validCalendarDate c = true -> 0 <= year c <= 9999 ->
  dateOfInput (isoDate c) = DateObject (ValidDate (dayOfCalendar c * msPerDay))
  /\ safeFormatForInput (dateOfInput (isoDate c)) = Some (isoDate c)
  /\ safeFormatForInput (dateOfInput EmptyString) = Some EmptyString.
Proof.
  intros V Y. rewrite (dateOfInput_date c V Y). split; [reflexivity |].
  split; [| reflexivity].
  rewrite safeFormatForInput_call. f_equal. now apply shownDate_midnight.
Qed.

Lemma date_input_witness :
  safeFormatForInput (P := isoParser) (dateOfInput (P := isoParser) "2024-02-29")
  = Some "2024-02-29"%string.
Proof.
  refine (proj1 (proj2 (date_input_round_trip (P := isoParser)
                          (mkCalendarDate 2024 2 29) _ _))).
  - reflexivity.
  - cbn [year]. lia.
Defined.

(** X14.  A record whose last call was typed into a date input is kept by
    the last-call search box exactly when the box holds that same date.
    Both dates are dates of the calendar with a year of four digits, as a
    date input gives them. *)
Theorem typed_date_is_found {P : DateParser} (typed box : CalendarDate) (customer : Customer) :
  validCalendarDate typed = true -> 0 <= year typed <= 9999 ->
  validCalendarDate box = true -> 0 <= year box <= 9999 ->
  fieldOfCall (lastCall customer) = dateOfInput (isoDate typed) ->
  (customerMatches (mkSearch "" "" "" "" "" None (isoDate box) "") customer = true
   <-> box = typed).
Proof.
  intros Vt Yt Vb Yb E. rewrite (dateOfInput_date typed Vt Yt) in E.
  assert (L : lastCall customer = Some (dayOfCalendar typed * msPerDay)).
  { destruct (lastCall customer); cbn [fieldOfCall] in E;
      [injection E as ->; reflexivity | discriminate E]. }
  unfold customerMatches.
  cbn [searchId searchFullName searchPhone searchNote searchCustomField searchType
       searchLastCall searchNextCall truthy toLowerCase].
  rewrite !includes_nil. cbn [andb].
  unfold callMatch at 2. cbn [truthy negb]. rewrite andb_true_r.
  unfold callMatch. rewrite isoDate_truthy, L. cbn [negb].
  rewrite toISOString_date, Day_of_midnight, calendarOfDay_dayOfCalendar by assumption.
  rewrite String.eqb_eq. split.
  - intros H. symmetry. apply isoDate_inj; try assumption; lia.
  - now intros ->.
Qed.

Lemma typed_date_witness :
  customerMatches (mkSearch "" "" "" "" "" None "2024-02-29" "")
    (mkCustomer (Some 1) "Ann" "555" "" "" NEW (Some 1709164800000) None) = true.
Proof.
  refine (proj2 (typed_date_is_found (P := isoParser)
                   (mkCalendarDate 2024 2 29) (mkCalendarDate 2024 2 29)
                   (mkCustomer (Some 1) "Ann" "555" "" "" NEW (Some 1709164800000) None)
                   _ _ _ _ _) eq_refl).
  - reflexivity.
  - cbn [year]. lia.
  - reflexivity.
  - cbn [year]. lia.
  - reflexivity.
Defined.

(* ================================================================== *)
(** * Facts about the export and the import of it *)

Section ExportFacts.

Context {P : DateParser}.

Lemma typeOfText_typeText t : typeOfText (typeText t) = Some t.
Proof. now destruct t. Qed.

Lemma importedDate_exported name (call : option Date) members :
  member name members = option_map (fun d => JString (toISOString d)) call ->
  importedDate name (JObject members) = Some (exportedDate call).
Proof.
  intros H. unfold importedDate. cbn [property]. rewrite H.
  destruct call as [d|]; [| reflexivity].
  cbn [option_map truthyJSON exportedDate]. now rewrite toISOString_truthy.
Qed.

Lemma importRow_customerJSON c : importRow (customerJSON c) = Some (exportedRow c).
Proof.
  destruct c as [i name ph nt custom ty lc nc].
  unfold importRow, customerJSON.
  cbn [id fullName phone note customSearchField1 type lastCall nextCall].
  rewrite (importedDate_exported "lastCall" lc), (importedDate_exported "nextCall" nc).
  - unfold exportedRow.
    cbn [id fullName phone note customSearchField1 type lastCall nextCall ownProperties].
    do 2 f_equal. destruct i, lc, nc; reflexivity.
  - destruct i, lc, nc; reflexivity.
  - destruct i, lc, nc; reflexivity.
Qed.

Lemma mapRows_exported cs : mapRows (map customerJSON cs) = Some (map exportedRow cs).
Proof.
  induction cs as [|c rest IH]; [reflexivity |].
  cbn [map mapRows]. now rewrite importRow_customerJSON, IH.
Qed.

Lemma rowDate_exported (call : option Date) :
  (forall d, call = Some d -> - maxTime <= d <= maxTime) ->
  rowDate (exportedDate call) = Some call.
Proof.
  intros H. destruct call as [d|]; [| reflexivity].
  cbn [exportedDate option_map rowDate]. now rewrite Date_parse_toISOString by auto.
Qed.

Lemma rowCustomer_exported c : callsInRange c -> rowCustomer (exportedRow c) = Some c.
Proof.
  intros [Hl Hn]. unfold rowCustomer.
  cbn [exportedRow importedLastCall importedNextCall].
  rewrite !rowDate_exported by assumption.
  destruct c as [i name ph nt custom ty lc nc].
  cbn [id fullName phone note customSearchField1 type lastCall nextCall].
  replace (rowText "type" _) with (Some (typeText ty)) by (now destruct i).
  replace (rowText "fullName" _) with (Some name) by (now destruct i).
  replace (rowText "phone" _) with (Some ph) by (now destruct i).
  replace (rowText "note" _) with (Some nt) by (now destruct i).
  replace (rowText "customSearchField1" _) with (Some custom) by (now destruct i).
  replace (rowId _) with (Some i) by (now destruct i).
  now rewrite typeOfText_typeText.
Qed.


End ExportFacts.

(** X15.  What is exported can be imported again.  The value [exportData]
    writes for the records of the store (taken to be the value
    [JSON.parse] reads back from the file) passes the import without an
    alert; once confirmed, the store is cleared and given one row for
    each record, in the order of the export, and each row reads as the
    record it came from: same id, texts and type, and call dates of the
    same time value. *)
Theorem export_then_import {P : DateParser} (allCustomers : list Customer) (c : Component) :
  Forall callsInRange allCustomers ->
  exists rows,
    importedCustomers (Value (exportData allCustomers)) = Some rows
    /\ map rowCustomer rows = map Some allCustomers
    /\ storeCalls (importData (Some (Value (exportData allCustomers))) true c)
       = storeCalls c ++ [store_clear; store_bulkAdd rows]
    /\ alerts (importData (Some (Value (exportData allCustomers))) true c) = alerts c
    /\ importData (Some (Value (exportData allCustomers))) false c = c.
Proof.
  intros Hrange. exists (map exportedRow allCustomers).
  assert (E : importedCustomers (Value (exportData allCustomers))
              = Some (map exportedRow allCustomers)) by apply mapRows_exported.
  split; [exact E |]. split.
  - rewrite map_map. apply map_ext_in. intros r Hin.
    apply rowCustomer_exported.
    rewrite List.Forall_forall in Hrange. now apply Hrange.
  - unfold importData. rewrite E. now cbn [storeCalls alerts].
Qed.

Lemma export_then_import_witness :
  Forall callsInRange [ann; bob]
  /\ exists rows,
       importedCustomers (Value (exportData [ann; bob])) = Some rows
       /\ map (rowCustomer (P := isoParser)) rows = [Some ann; Some bob].
Proof.
  assert (R : Forall callsInRange [ann; bob]).
  { constructor; [| constructor; [| constructor]];
      (split; intros d H; vm_compute in H; try discriminate H;
       injection H as <-; unfold maxTime; lia). }
  split; [exact R |].
  destruct (export_then_import (P := isoParser) [ann; bob]
              (mkComponent blankCustomer None [] []) R) as (rows & E & M & _).
  exists rows. split; [exact E | exact M].
Defined.

